(** * Consolidation of yearly prescription extracts: model and properties

    A shallow embedding of [scripts/build_prescricoes_parquet.py]: the
    key normaliser, the dictionary builder, the schema unifier, the row
    enricher and the consolidator, over a small executable model of the
    data-frame operations the script calls. *)

From Stdlib Require Import String Ascii NArith.
From stdpp Require Import gmap list sorting.

Local Open Scope N_scope.

(** * Text

    A string is the sequence of its Unicode code points, the unit on which
    the engine's case mapping, trimming and the regular expression class
    [\s] all work. *)

Abbreviation str := (list N).

Definition lit (s : string) : str := N_of_ascii <$> list_ascii_of_string s.

Definition space : N := 32.

(** The code points with the Unicode property White_Space: what
    [str.strip_chars()] trims and what [\s] matches. *)
Definition is_whitespace (c : N) : bool :=
  ((9 <=? c) && (c <=? 13)) || (c =? 32) || (c =? 133) || (c =? 160)
  || (c =? 5760) || ((8192 <=? c) && (c <=? 8202)) || (c =? 8232)
  || (c =? 8233) || (c =? 8239) || (c =? 8287) || (c =? 12288).

Fixpoint drop_while (p : N → bool) (s : str) : str :=
  match s with
  | [] => []
  | c :: t => if p c then drop_while p t else s
  end.

Definition strip_with (p : N → bool) (s : str) : str :=
  reverse (drop_while p (reverse (drop_while p s))).

(** No code point to trim at the front, at the back. *)
Definition head_ok (p : N → bool) (s : str) : Prop :=
  match s with
  | c :: _ => p c = false
  | [] => True
  end.

Definition last_ok (p : N → bool) (s : str) : Prop :=
  match last s with
  | Some c => p c = false
  | None => True
  end.

(** [str.strip_chars()] with no argument: whitespace removed at both ends. *)
Definition strip_chars : str → str := strip_with is_whitespace.

(** [str.replace(r"\s+", " ", literal=False)]: the engine's [replace]
    rewrites the FIRST match only (its [n] defaults to 1; [replace_all] is
    the call that rewrites every match).  The first match of [\s+] is the
    leftmost maximal run of whitespace. *)
Fixpoint replace_ws_run (s : str) : str :=
  match s with
  | [] => []
  | c :: t =>
      if is_whitespace c then space :: drop_while is_whitespace t
      else c :: replace_ws_run t
  end.

(** What [replace_all] would do: every run becomes one space.  The flag
    tells whether the previous code point was already part of a run. *)
Fixpoint collapse_ws (in_run : bool) (s : str) : str :=
  match s with
  | [] => []
  | c :: t =>
      if is_whitespace c then
        if in_run then collapse_ws true t else space :: collapse_ws true t
      else c :: collapse_ws false t
  end.

Definition replace_all_ws_runs : str → str := collapse_ws false.

(** Python's [str.strip()] also trims the four separators U+001C..U+001F. *)
Definition py_isspace (c : N) : bool :=
  is_whitespace c || ((28 <=? c) && (c <=? 31)).

Definition py_strip : str → str := strip_with py_isspace.

Fixpoint starts_with (p s : str) : bool :=
  match p, s with
  | [], _ => true
  | a :: p', b :: s' => (a =? b) && starts_with p' s'
  | _ :: _, [] => false
  end.

(** Python compares strings code point by code point. *)
Fixpoint str_leb (a b : str) : bool :=
  match a, b with
  | [], _ => true
  | _ :: _, [] => false
  | x :: a', y :: b' => (x <? y) || ((x =? y) && str_leb a' b')
  end.

Definition str_le (a b : str) : Prop := str_leb a b = true.

Global Instance str_le_dec : RelDecision str_le.
Proof. intros a b. unfold str_le. apply _. Defined.

(** [sorted(...)] of strings. *)
Definition sorted (l : list str) : list str := merge_sort str_le l.

(** ** Decimal text of an unsigned integer and [str.zfill] *)

Fixpoint decimal_aux (fuel : nat) (n : N) (acc : str) : str :=
  match fuel with
  | O => acc
  | S k =>
      let acc' := (48 + n mod 10) :: acc in
      if n / 10 =? 0 then acc' else decimal_aux k (n / 10) acc'
  end.

(** A number has no more decimal digits than binary ones. *)
Definition decimal (n : N) : str := decimal_aux (S (N.to_nat (N.size n))) n [].

(** The number a decimal text stands for. *)
Fixpoint digits_value (acc : N) (s : str) : N :=
  match s with
  | [] => acc
  | c :: t => digits_value (10 * acc + (c - 48)) t
  end.

Definition pad_zeros (width : nat) (s : str) : str :=
  replicate (width - length s) 48 ++ s.

(** [str.zfill(width)]: zeros on the left up to [width]; after the sign
    when the text starts with a minus. *)
Definition zfill (width : nat) (s : str) : str :=
  match s with
  | c :: t => if c =? 45 then c :: pad_zeros (width - 1) t else pad_zeros width s
  | [] => pad_zeros width s
  end.

(** ** File names *)

(** [os.path.basename]: what follows the last slash. *)
Fixpoint basename (p : str) : str :=
  match p with
  | [] => []
  | c :: t =>
      if bool_decide (47 ∈ t) then basename t
      else if c =? 47 then t else p
  end.

(** The ASCII part of the Unicode tables, enough to run examples. *)
Definition ascii_upper (c : N) : list N :=
  if (97 <=? c) && (c <=? 122) then [c - 32] else [c].

Definition ascii_digit (c : N) : bool := (48 <=? c) && (c <=? 57).

(** * Frames *)

Inductive dtype := Utf8 | Int64 | Float64 | Boolean | UInt32 | Null.

Global Instance dtype_eq_dec : EqDecision dtype.
Proof. solve_decision. Defined.

(** A cell.  [VRaw t s] is a value the CSV reader parsed as the non-text
    type [t], kept with the text [s] that casting it to [Utf8] yields. *)
Inductive value :=
  | VNull
  | VStr (s : str)
  | VBool (b : bool)
  | VUInt (n : N)
  | VRaw (t : dtype) (text : str).

Global Instance value_eq_dec : EqDecision value.
Proof. solve_decision. Defined.

Abbreviation row := (gmap str value).

Record frame := Frame { schema : list (str * dtype); rows : list row }.

Definition names (f : frame) : list str := (schema f).*1.

(** A column a row does not carry reads as null. *)
Definition field (r : row) (c : str) : value := default VNull (r !! c).

(** What aborts a step: the engine's exceptions and the script's own. *)
Inductive error :=
  | ColumnNotFound (c : str)
  | DuplicateError (c : str)
  | InvalidOperation
  | SchemaError
  | ShapeError
  | NoDataError
  | NoCsvFound                 (* SystemExit: no CSV in the input directory *)
  | NoKeyColumns               (* SystemExit: dictionary without alias columns *)
  | EmptyHeader (path : str)   (* SystemExit: empty header *)
  | YearNotFound (path : str). (* ValueError of year_from_filename *)

Inductive result (A : Type) :=
  | Ok (a : A)
  | Err (e : error).
Arguments Ok {A} a.
Arguments Err {A} e.

Global Instance result_ret : MRet result := @Ok.
Global Instance result_bind : MBind result := λ A B f m,
  match m with
  | Ok a => f a
  | Err e => Err e
  end.

(** A [for] loop whose body may raise: the first exception ends it. *)
Fixpoint for_each {A B} (f : A → result B) (l : list A) : result (list B) :=
  match l with
  | [] => Ok []
  | x :: t => y ← f x; ys ← for_each f t; Ok (y :: ys)
  end.

Fixpoint fold_each {A S} (f : S → A → result S) (s : S) (l : list A) : result S :=
  match l with
  | [] => Ok s
  | x :: t => s' ← f s x; fold_each f s' t
  end.

Definition lookup_dtype (sch : list (str * dtype)) (c : str) : result dtype :=
  match list_find (λ ct, ct.1 = c) sch with
  | Some (_, (_, t)) => Ok t
  | None => Err (ColumnNotFound c)
  end.

(** The common type of two columns; anything mixed widens to text. *)
Definition supertype (a b : dtype) : dtype :=
  match a, b with
  | Null, t | t, Null => t
  | _, _ => if decide (a = b) then a else Utf8
  end.

Definition cast_utf8 (v : value) : value :=
  match v with
  | VNull => VNull
  | VStr s => VStr s
  | VBool b => VStr (lit (if b then "true" else "false"))
  | VUInt n => VStr (decimal n)
  | VRaw _ s => VStr s
  end.

Definition coerce (t : dtype) (v : value) : value :=
  match t with Utf8 => cast_utf8 v | _ => v end.

(** ** Expressions *)

Inductive expr :=
  | Col (c : str)                 (* pl.col(c) *)
  | Lit (s : str)                 (* pl.lit("...") *)
  | LitNull                       (* pl.lit(None) *)
  | LitBool (b : bool)            (* pl.lit(True) *)
  | CastUtf8 (e : expr)           (* e.cast(pl.Utf8) *)
  | StrToUppercase (e : expr)     (* e.str.to_uppercase() *)
  | StrStripChars (e : expr)      (* e.str.strip_chars() *)
  | StrReplaceWs (e : expr)       (* e.str.replace(r"\s+", " ", literal=False) *)
  | StrZfill (width : nat) (e : expr)
  | Add (a b : expr)              (* a + b on text *)
  | IsNull (e : expr)
  | IsNotNull (e : expr)
  | And (a b : expr)              (* a & b *)
  | Eq (a b : expr)               (* a == b *)
  | Ne (a b : expr).              (* a != b *)

Definition on_str (f : str → str) (v : value) : value :=
  match v with VStr s => VStr (f s) | _ => VNull end.

Definition is_null (v : value) : bool :=
  match v with VNull => true | _ => false end.

(** Three-valued conjunction: false wins over null. *)
Definition and_value (a b : value) : value :=
  match a, b with
  | VBool false, _ | _, VBool false => VBool false
  | VBool true, VBool true => VBool true
  | _, _ => VNull
  end.

(** A comparison with a null on either side is null. *)
Definition eq_value (a b : value) : value :=
  match a, b with
  | VNull, _ | _, VNull => VNull
  | _, _ => VBool (bool_decide (a = b))
  end.

Definition ne_value (a b : value) : value :=
  match eq_value a b with VBool x => VBool (negb x) | v => v end.

Definition need (want got : dtype) : result unit :=
  if decide (want = got) then Ok () else Err InvalidOperation.

(** The type of an expression over a schema; fails on an unknown column or
    on a text operation applied to something that is not text. *)
Fixpoint dtype_of (sch : list (str * dtype)) (e : expr) : result dtype :=
  match e with
  | Col c => lookup_dtype sch c
  | Lit _ => Ok Utf8
  | LitNull => Ok Null
  | LitBool _ => Ok Boolean
  | CastUtf8 e => _ ← dtype_of sch e; Ok Utf8
  | StrToUppercase e | StrStripChars e | StrReplaceWs e | StrZfill _ e =>
      t ← dtype_of sch e; _ ← need Utf8 t; Ok Utf8
  | Add a b =>
      ta ← dtype_of sch a; tb ← dtype_of sch b;
      _ ← need Utf8 ta; _ ← need Utf8 tb; Ok Utf8
  | IsNull e | IsNotNull e => _ ← dtype_of sch e; Ok Boolean
  | And a b =>
      ta ← dtype_of sch a; tb ← dtype_of sch b;
      _ ← need Boolean ta; _ ← need Boolean tb; Ok Boolean
  | Eq a b | Ne a b =>
      ta ← dtype_of sch a; tb ← dtype_of sch b;
      _ ← need ta tb; Ok Boolean
  end.

(** [e.alias(name)] *)
Definition aliased : Type := expr * str.

Fixpoint first_dup (l : list str) : option str :=
  match l with
  | [] => None
  | c :: t => if bool_decide (c ∈ t) then Some c else first_dup t
  end.

(** The column names the script tests for, creates or drops. *)
Definition PRINCIPIO_ATIVO : str := lit "PRINCIPIO_ATIVO".
Definition PRINCIPIO_ATIVO_1 : str := lit "PRINCIPIO_ATIVO_1".
Definition PRINCIPIO_ATIVO_2 : str := lit "PRINCIPIO_ATIVO_2".
Definition DESCRICAO_APRESENTACAO : str := lit "DESCRICAO_APRESENTACAO".
Definition ANO_VENDA : str := lit "ANO_VENDA".
Definition key_norm : str := lit "key_norm".
Definition alias_col : str := lit "alias_col".
Definition row_number : str := lit "row_number".
Definition ano : str := lit "ano".
Definition ID : str := lit "ID".
Definition norm_ : str := lit "norm_".
Definition suffix_right : str := lit "_right".

(** [normalize_key_expr]: the expression the script builds. *)
Definition normalize_key_expr (s : expr) : expr :=
  StrReplaceWs (StrStripChars (StrToUppercase (CastUtf8 s))).

(** The filter of [build_dict_table]:
    [pl.col("key_norm").is_not_null() & (pl.col("key_norm") != "")]. *)
Definition key_present : expr :=
  And (IsNotNull (Col key_norm)) (Ne (Col key_norm) (Lit [])).

Section Pipeline.

(** The Unicode upper-case mapping of one code point (one to three code
    points): [str.to_uppercase()] maps it over the string. *)
Variable upper_char : N → list N.

(** The Unicode decimal digits (category Nd), which [\d] matches in a
    Python text pattern. *)
Variable is_decimal_digit : N → bool.

(** [unique] is called without [maintain_order]: the order in which it
    leaves the rows is the engine's. *)
Variable reorder : list row → list row.

Definition to_uppercase (s : str) : str := s ≫= upper_char.

Fixpoint eval (e : expr) (r : row) : value :=
  match e with
  | Col c => field r c
  | Lit s => VStr s
  | LitNull => VNull
  | LitBool b => VBool b
  | CastUtf8 e => cast_utf8 (eval e r)
  | StrToUppercase e => on_str to_uppercase (eval e r)
  | StrStripChars e => on_str strip_chars (eval e r)
  | StrReplaceWs e => on_str replace_ws_run (eval e r)
  | StrZfill w e => on_str (zfill w) (eval e r)
  | Add a b =>
      match eval a r, eval b r with
      | VStr x, VStr y => VStr (x ++ y)
      | _, _ => VNull
      end
  | IsNull e => VBool (is_null (eval e r))
  | IsNotNull e => VBool (negb (is_null (eval e r)))
  | And a b => and_value (eval a r) (eval b r)
  | Eq a b => eq_value (eval a r) (eval b r)
  | Ne a b => ne_value (eval a r) (eval b r)
  end.

(** What [normalize_key_expr] computes on a text, and what the
    specification says it computes. *)
Definition normalize_key (s : str) : str :=
  replace_ws_run (strip_chars (to_uppercase s)).

Definition normalize_key_spec (s : str) : str :=
  replace_all_ws_runs (strip_chars (to_uppercase s)).

(** ** Frame operations *)

(** [lf.select([...])]: the frame of the given expressions, in order. *)
Definition select (es : list aliased) (f : frame) : result frame :=
  sch ← for_each (λ ea, t ← dtype_of (schema f) ea.1; Ok (ea.2, t)) es;
  match first_dup es.*2 with
  | Some c => Err (DuplicateError c)
  | None =>
      Ok (Frame sch
            ((λ r, list_to_map ((λ ea, (ea.2, eval ea.1 r)) <$> es)) <$> rows f))
  end.

Definition set_dtype (sch : list (str * dtype)) (c : str) (t : dtype)
  : list (str * dtype) :=
  if bool_decide (c ∈ sch.*1)
  then (λ ct, if decide (ct.1 = c) then (c, t) else ct) <$> sch
  else sch ++ [(c, t)].

(** [lf.with_columns(e.alias(name))]: replaces the column of that name in
    place, or appends it. *)
Definition with_columns (e : expr) (name : str) (f : frame) : result frame :=
  t ← dtype_of (schema f) e;
  Ok (Frame (set_dtype (schema f) name t)
            ((λ r, <[name := eval e r]> r) <$> rows f)).

(** [lf.with_row_index(name, offset)]: a new first column counting the
    rows from [offset]; refuses a name already in use. *)
Definition with_row_index (name : str) (offset : N) (f : frame) : result frame :=
  if bool_decide (name ∈ names f) then Err (DuplicateError name)
  else
    Ok (Frame ((name, UInt32) :: schema f)
              (imap (λ i r, <[name := VUInt (offset + N.of_nat i)]> r) (rows f))).

(** [lf.drop(cols)] *)
Definition drop_columns (cols : list str) (f : frame) : result frame :=
  _ ← for_each (lookup_dtype (schema f)) cols;
  Ok (Frame (filter (λ ct, ct.1 ∉ cols) (schema f))
            ((λ r : row, filter (λ kv, kv.1 ∉ cols) r) <$> rows f)).

(** [lf.filter(e)]: the rows on which [e] is true (not false, not null). *)
Definition filter_rows (e : expr) (f : frame) : result frame :=
  t ← dtype_of (schema f) e;
  _ ← need Boolean t;
  Ok (Frame (schema f) (filter (λ r, eval e r = VBool true) (rows f))).

(** [df.unpivot(index, on, variable_name, value_name)]: one row per
    ([on] column, input row), the [on] columns one after the other. *)
Definition unpivot (index on : list str) (variable_name value_name : str)
    (f : frame) : result frame :=
  ti ← for_each (λ c, t ← lookup_dtype (schema f) c; Ok (c, t)) index;
  to ← for_each (lookup_dtype (schema f)) on;
  match first_dup (index ++ [variable_name; value_name]) with
  | Some c => Err (DuplicateError c)
  | None =>
      Ok (Frame (ti ++ [(variable_name, Utf8); (value_name, foldr supertype Null to)])
            (on ≫= λ c,
               (λ r : row,
                  <[value_name := field r c]>
                    (<[variable_name := VStr c]>
                       (list_to_map ((λ i, (i, field r i)) <$> index))))
               <$> rows f))
  end.

(** The first row of every group of equal keys. *)
Fixpoint keep_first (key : row → value) (l : list row) : list row :=
  match l with
  | [] => []
  | r :: t => r :: filter (λ r', key r' ≠ key r) (keep_first key t)
  end.

(** [df.unique(subset=[c])]: one row per value of [c], the first one met
    (the comment in the script says so, and the engine's default
    [keep="any"] takes the first row of each group); the order of the
    result is the engine's. *)
Definition unique (c : str) (f : frame) : result frame :=
  _ ← lookup_dtype (schema f) c;
  Ok (Frame (schema f) (reorder (keep_first (λ r, field r c) (rows f)))).

(** Join keys match when both are the same text; a null matches nothing. *)
Definition key_match (a b : value) : bool :=
  match a, b with
  | VStr x, VStr y => bool_decide (x = y)
  | _, _ => false
  end.

(** The name a right-hand column gets in the join: its own, or with the
    suffix [_right] when the left frame has that name already. *)
Definition join_name (left_names : list str) (c : str) : str :=
  if bool_decide (c ∈ left_names) then c ++ suffix_right else c.

Definition payload (on : str) (right : frame) : list (str * dtype) :=
  filter (λ ct, ct.1 ≠ on) (schema right).

(** The right-hand part of a joined row: the payload of the matching row,
    or nulls. *)
Definition attach (left_names : list str) (cols : list str) (m : option row) : row :=
  list_to_map
    ((λ c, (join_name left_names c,
            match m with Some rr => field rr c | None => VNull end)) <$> cols).

(** [left.join(right, on=on, how="left")]: every left row, once per
    matching right row, or once with null payload when none matches, in
    the order of the left frame; the key column of the right frame is not
    repeated. *)
Definition join_left (on : str) (left right : frame) : result frame :=
  tl ← lookup_dtype (schema left) on;
  tr ← lookup_dtype (schema right) on;
  if decide (tl = tr) then
    let pay := payload on right in
    let renamed := (λ ct, (join_name (names left) ct.1, ct.2)) <$> pay in
    match first_dup (names left ++ renamed.*1) with
    | Some c => Err (DuplicateError c)
    | None =>
        Ok (Frame (schema left ++ renamed)
              (rows left ≫= λ lr,
                 match filter (λ rr, key_match (field lr on) (field rr on) = true)
                              (rows right) with
                 | [] => [lr ∪ attach (names left) pay.*1 None]
                 | ms => (λ rr, lr ∪ attach (names left) pay.*1 (Some rr)) <$> ms
                 end))
    end
  else Err SchemaError.

Definition coerce_row (sch : list (str * dtype)) (r : row) : row :=
  foldr (λ ct (acc : row), alter (coerce ct.2) ct.1 acc) r sch.

(** [pl.concat(frames, how="vertical_relaxed")]: the rows of all frames,
    in order; the frames must have the same column names, and a column
    whose types differ is widened to their common type. *)
Definition concat_vertical_relaxed (fs : list frame) : result frame :=
  match fs with
  | [] => Err NoDataError
  | f :: rest =>
      if forallb (λ g, bool_decide (names g = names f)) rest then
        let sch :=
          foldl (λ acc g, zip_with (λ a b, (a.1, supertype a.2 b.2)) acc (schema g))
                (schema f) rest in
        Ok (Frame sch (fs ≫= λ g, coerce_row sch <$> rows g))
      else Err ShapeError
  end.

(** [lf.group_by(keys).len()]: one row per combination of key values,
    with the number of rows that carry it. *)
Definition group_by_len (keys : list str) (f : frame) : result frame :=
  tk ← for_each (λ c, t ← lookup_dtype (schema f) c; Ok (c, t)) keys;
  match first_dup (keys ++ [lit "len"]) with
  | Some c => Err (DuplicateError c)
  | None =>
      let proj (r : row) : row := list_to_map ((λ c, (c, field r c)) <$> keys) in
      let groups := remove_dups (proj <$> rows f) in
      Ok (Frame (tk ++ [(lit "len", UInt32)])
            ((λ g : row,
                <[lit "len" := VUInt (N.of_nat (length (filter (λ r, proj r = g) (rows f))))]> g)
             <$> groups))
  end.

(** ** The script *)

(** [sanitize_df_columns]: drops the columns whose name is blank. *)
Definition sanitize_df_columns (df : frame) : result frame :=
  let drop_cols := filter (λ c, py_strip c = []) (names df) in
  match drop_cols with
  | [] => Ok df
  | _ => drop_columns drop_cols df
  end.

Definition alias_columns : list str :=
  [PRINCIPIO_ATIVO; PRINCIPIO_ATIVO_1; PRINCIPIO_ATIVO_2].

Definition key_cols_of (df : frame) : list str :=
  filter (λ c, c ∈ names df) alias_columns.

Definition descriptor_cols_of (key_cols : list str) (df : frame) : list str :=
  filter (λ c, (c ∉ key_cols) ∧ (starts_with norm_ c = false)) (names df).

(** [build_dict_table], from the frame [pl.read_csv] returns for the
    dictionary file. *)
Definition build_dict_table (dict_df : frame) : result (frame * list str) :=
  df ← sanitize_df_columns dict_df;
  let key_cols := key_cols_of df in
  match key_cols with
  | [] => Err NoKeyColumns
  | _ =>
      df ← fold_each
             (λ df c, with_columns (normalize_key_expr (Col c)) (norm_ ++ c) df)
             df key_cols;
      let alias_norm_cols := (λ c, norm_ ++ c) <$> key_cols in
      let descriptor_cols := descriptor_cols_of key_cols df in
      long ← unpivot descriptor_cols alias_norm_cols alias_col key_norm df;
      long ← filter_rows key_present long;
      long ← unique key_norm long;
      long ← (if bool_decide (alias_col ∈ names long)
              then drop_columns [alias_col] long else Ok long);
      Ok (long, descriptor_cols)
  end.

(** The dictionary read alias column by alias column, rows in order: the
    normalised alias of every (alias column, row) pair with the row it
    comes from.  This is the order in which [unpivot] lays them out. *)
Definition alias_occurrences (dict_df : frame) : list (value * row) :=
  key_cols_of dict_df ≫= λ c,
    (λ r, (on_str normalize_key (cast_utf8 (field r c)), r)) <$> rows dict_df.

(** A dictionary row after the loop that adds the normalised aliases. *)
Definition normed_row (key_cols : list str) (r : row) : row :=
  foldl (λ (acc : row) c, <[norm_ ++ c := eval (normalize_key_expr (Col c)) acc]> acc)
        r key_cols.

(** The row [unpivot] makes of alias column [c] and dictionary row [r]. *)
Definition long_row (descriptor_cols : list str) (c : str) (r : row) : row :=
  <[key_norm := on_str normalize_key (cast_utf8 (field r c))]>
    (<[alias_col := VStr (norm_ ++ c)]>
       (list_to_map ((λ i, (i, field r i)) <$> descriptor_cols))).

(** The mapping row an occurrence stands for: its key and the descriptor
    values of its dictionary row. *)
Definition dict_entry (descriptor_cols : list str) (o : value * row) : row :=
  <[key_norm := o.1]>
    (list_to_map ((λ c, (c, field o.2 c)) <$> descriptor_cols)).

(** [re.search(r"(20\d{2})", s)]: the leftmost place where "20" and two
    digits stand. *)
Fixpoint search_year (s : str) : option str :=
  match s with
  | [] => None
  | a :: t =>
      match t with
      | b :: c :: d :: _ =>
          if (a =? 50) && (b =? 48) && is_decimal_digit c && is_decimal_digit d
          then Some [a; b; c; d]
          else search_year t
      | _ => None
      end
  end.

(** A text that the pattern [20\d{2}] matches. *)
Definition is_year (y : str) : Prop :=
  ∃ c d, y = [50; 48; c; d] ∧ is_decimal_digit c = true ∧ is_decimal_digit d = true.

Definition year_from_filename (path : str) : result str :=
  match search_year (basename path) with
  | Some y => Ok y
  | None => Err (YearNotFound path)
  end.

(** The projection plan of [build_lazy_for_csv]: one expression per
    superset column, the column cast to text when the file has it, a null
    of type text when it does not. *)
Definition selected (superset_cols : list str) (lf_cols : list str) : list aliased :=
  (λ c, if bool_decide (c ∈ lf_cols)
        then (CastUtf8 (Col c), c)
        else (CastUtf8 LitNull, c)) <$> superset_cols.

Definition project (superset_cols : list str) (lf : frame) : result frame :=
  select (selected superset_cols (names lf)) lf.

(** [pl.col("ano") + pl.lit("-")
      + pl.col("row_number").cast(pl.Utf8).str.zfill(8)] *)
Definition id_expr : expr :=
  Add (Add (Col ano) (Lit (lit "-"))) (StrZfill 8 (CastUtf8 (Col row_number))).

(** [build_lazy_for_csv]; [lf] is the frame [pl.scan_csv] gives for the
    file. *)
Definition build_lazy_for_csv (path : str) (superset_cols : list str)
    (lf : frame) (dict_map : frame) : result frame :=
  ano_v ← year_from_filename path;
  lf ← project superset_cols lf;
  lf ← with_columns (Lit ano_v) ano lf;
  lf ← with_row_index row_number 1 lf;
  lf ← with_columns id_expr ID lf;
  if bool_decide (PRINCIPIO_ATIVO ∈ superset_cols) then
    (lf ← with_columns (normalize_key_expr (Col PRINCIPIO_ATIVO)) key_norm lf;
     join_left key_norm lf dict_map)
  else
    with_columns LitNull key_norm lf.

(** The row that [build_lazy_for_csv] has made of the [i]-th parsed row
    [src] when it reaches the join (lemma [build_lazy_for_csv_join]). *)
Definition project_row (superset_cols lf_cols : list str) (src : row) : row :=
  list_to_map ((λ ea : aliased, (ea.2, eval ea.1 src))
                 <$> selected superset_cols lf_cols).

Definition numbered_row (y : str) (superset_cols lf_cols : list str)
    (i : nat) (src : row) : row :=
  let r := <[row_number := VUInt (1 + N.of_nat i)]>
             (<[ano := VStr y]> (project_row superset_cols lf_cols src)) in
  <[ID := eval id_expr r]> r.

Definition enriched_row (y : str) (superset_cols lf_cols : list str)
    (i : nat) (src : row) : row :=
  let r := numbered_row y superset_cols lf_cols i src in
  <[key_norm := eval (normalize_key_expr (Col PRINCIPIO_ATIVO)) r]> r.

Definition cols_to_drop : list str :=
  [ANO_VENDA; row_number; key_norm; lit "_duplicated_0"].

(** The report on unmatched rows that [main] attempts after writing. *)
Definition unmatched_report (superset_cols : list str) (all_lf : frame)
  : result (option frame) :=
  if bool_decide (PRINCIPIO_ATIVO ∈ superset_cols) then
    f ← with_columns (IsNull (Col key_norm)) (lit "_unmatched") all_lf;
    f ← group_by_len [ano; lit "_unmatched"] f;
    f ← filter_rows (Eq (Col (lit "_unmatched")) (LitBool true)) f;
    (f ← select [(Col ano, ano); (Col (lit "len"), lit "nao_mapeados")] f;
     Ok (Some f))
  else Ok None.

(** What a run leaves behind: the consolidated file, and the report when
    one was written. *)
Record output := Output { parquet : frame; unmatched_csv : option frame }.

(** The union of the headers, as [main] accumulates it. *)
Definition collect_columns (header : str → list str) (files : list str)
  : result (gset str) :=
  fold_each (λ (col_set : gset str) fp,
               match header fp with
               | [] => Err (EmptyHeader fp)
               | cols => Ok (col_set ∪ list_to_set cols)
               end) ∅ files.

(** The consolidated frame, up to the point where it is written. *)
Definition consolidate (superset_cols : list str) (lazy_frames : list frame)
  : result frame :=
  all_lf ← concat_vertical_relaxed lazy_frames;
  let drop_existing := filter (λ c, c ∈ names all_lf) cols_to_drop in
  all_lf ← (match drop_existing with
            | [] => Ok all_lf
            | _ => drop_columns drop_existing all_lf
            end);
  let schema_cols := names all_lf in
  let first_order :=
    filter (λ c, c ∈ schema_cols) [ID; ano; DESCRICAO_APRESENTACAO] in
  match first_order with
  | [] => Ok all_lf
  | _ =>
      select ((λ c, (Col c, c)) <$>
                (first_order ++ filter (λ c, c ∉ first_order) schema_cols))
             all_lf
  end.

(** [main].  [listing] is what the directory yields for [grouped_*.csv],
    in whatever order; [header fp] the columns [read_header] finds in
    [fp]; [scan fp] the frame [pl.scan_csv] gives for it; [dict_df] the
    dictionary as read.  An [Err] is a run that aborts.  The engine
    raises the errors of a lazy plan when the plan is resolved, the steps
    here raise at once: which exception ends a run may differ, whether one
    does is the same. *)
Definition main (listing : list str) (header : str → list str)
    (scan : str → frame) (dict_df : frame) : result output :=
  let files := sorted listing in
  match files with
  | [] => Err NoCsvFound
  | _ =>
      dm ← build_dict_table dict_df;
      col_set ← collect_columns header files;
      let superset_cols := sorted (elements col_set) in
      lazy_frames ← for_each
                      (λ fp, build_lazy_for_csv fp superset_cols (scan fp) dm.1)
                      files;
      all_lf ← consolidate superset_cols lazy_frames;
      (* the try/except around the report: a failure leaves no file *)
      let report := match unmatched_report superset_cols all_lf with
                    | Ok r => r
                    | Err _ => None
                    end in
      Ok (Output all_lf report)
  end.

End Pipeline.

(** * Notions used to state the properties *)

(** At most one row of a mapping answers to any key. *)
Definition one_row_per_key (on : str) (rs : list row) : Prop :=
  ∀ k, (length (filter (λ rr, key_match k (field rr on) = true) rs) ≤ 1)%nat.

(** The row of the mapping that a left row joins with, if any. *)
Definition matching_row (on : str) (rs : list row) (lr : row) : option row :=
  head (filter (λ rr, key_match (field lr on) (field rr on) = true) rs).

(** The columns a per-file frame has when it reaches the join. *)
Definition left_cols (superset_cols : list str) : list str :=
  row_number :: superset_cols ++ [ano; ID; key_norm].


(** The exceptions of the engine, as opposed to the exits of the script. *)
Definition engine_error (e : error) : Prop :=
  match e with
  | ColumnNotFound _ | DuplicateError _ | InvalidOperation
  | SchemaError | ShapeError | NoDataError => True
  | NoCsvFound | NoKeyColumns | EmptyHeader _ | YearNotFound _ => False
  end.

(** * The two-file scenario of the specification

    [grouped_2020.csv] with three rows and [grouped_2021.csv] with two, each
    with a [PRINCIPIO_ATIVO] column; a dictionary of one entry whose alias
    matches row 2 of 2020 and row 1 of 2021. *)
Module Scenario.

Definition file_2020 : str := lit "/data/grouped_2020.csv".
Definition file_2021 : str := lit "/data/grouped_2021.csv".

Definition csv_row (substance : string) : row :=
  {[ PRINCIPIO_ATIVO := VStr (lit substance) ]}.

Definition csv (substances : list string) : frame :=
  Frame [(PRINCIPIO_ATIVO, Utf8)] (csv_row <$> substances).

Definition scan (fp : str) : frame :=
  if decide (fp = file_2020) then csv ["Dipirona"; " Amoxicilina  500mg "; "Ibuprofeno"]%string
  else if decide (fp = file_2021) then csv ["AMOXICILINA 500MG"; "Paracetamol"]%string
  else Frame [] [].

Definition header (fp : str) : list str := names (scan fp).

Definition dict_df : frame :=
  Frame [(PRINCIPIO_ATIVO, Utf8); (lit "Classe_1", Utf8)]
        [ {[ PRINCIPIO_ATIVO := VStr (lit "amoxicilina 500mg");
             lit "Classe_1" := VStr (lit "Antibiotico") ]} ].

(** A dictionary in which two rows, and a second alias column, give the
    same normalised key. *)
Definition dict_dup : frame :=
  Frame [(PRINCIPIO_ATIVO, Utf8); (PRINCIPIO_ATIVO_1, Utf8); (lit "Classe_1", Utf8)]
        [ {[ PRINCIPIO_ATIVO := VStr (lit "amoxicilina 500mg");
             PRINCIPIO_ATIVO_1 := VStr (lit "Dipirona");
             lit "Classe_1" := VStr (lit "Antibiotico") ]};
          {[ PRINCIPIO_ATIVO := VStr (lit " Amoxicilina  500MG ");
             PRINCIPIO_ATIVO_1 := VNull;
             lit "Classe_1" := VStr (lit "Penicilina") ]};
          {[ PRINCIPIO_ATIVO := VStr (lit "  ");
             PRINCIPIO_ATIVO_1 := VStr (lit "AMOXICILINA 500mg");
             lit "Classe_1" := VStr (lit "Outro") ]} ].

Definition run : result output :=
  main ascii_upper ascii_digit id [file_2021; file_2020] header scan dict_df.

(** The report query on the frame as it is before [key_norm] is dropped. *)
Definition report_before_drop : result (option frame) :=
  dm ← build_dict_table ascii_upper id dict_df;
  fs ← for_each (λ fp, build_lazy_for_csv ascii_upper ascii_digit fp
                         [PRINCIPIO_ATIVO] (scan fp) dm.1)
                [file_2020; file_2021];
  all_lf ← concat_vertical_relaxed fs;
  unmatched_report ascii_upper [PRINCIPIO_ATIVO] all_lf.

End Scenario.

(** * Facts about text *)

Section TextFacts.

Variable p : N → bool.

Local Abbreviation head_ok := (head_ok p).
Local Abbreviation last_ok := (last_ok p).

Lemma drop_while_head_ok s : head_ok (drop_while p s).
Proof.
  induction s as [|c t IH]; simpl; [done|].
  destruct (p c) eqn:E; [done|]. simpl. done.
Qed.

Lemma drop_while_fixed s : head_ok s → drop_while p s = s.
Proof. destruct s as [|c t]; simpl; [done|]. by intros ->. Qed.

Lemma drop_while_suffix s : ∃ k, s = k ++ drop_while p s ∧ Forall (λ c, p c = true) k.
Proof.
  induction s as [|c t (k & Hk & Hall)]; simpl.
  - by exists [].
  - destruct (p c) eqn:E.
    + exists (c :: k). split; [by rewrite Hk at 1|]. by constructor.
    + by exists [].
Qed.

Lemma last_drop_while s c :
  last s = Some c → p c = false → last (drop_while p s) = Some c.
Proof.
  induction s as [|a t IH]; simpl; [done|].
  intros Hl Hc. destruct (p a) eqn:E; [|done].
  destruct t as [|b t']; simpl in *; [congruence|]. by apply IH.
Qed.

Lemma last_ok_reverse s : last_ok s ↔ head_ok (reverse s).
Proof.
  unfold last_ok. destruct s as [|a t] using rev_ind; [done|].
  rewrite last_snoc, reverse_snoc. done.
Qed.

Lemma head_ok_reverse s : head_ok s ↔ last_ok (reverse s).
Proof. rewrite last_ok_reverse, reverse_involutive. done. Qed.

Lemma strip_with_head_ok s : head_ok (strip_with p s).
Proof.
  unfold strip_with.
  pose proof (drop_while_head_ok s) as Hh.
  destruct (drop_while_suffix (reverse (drop_while p s))) as (k & Hk & _).
  set (u := drop_while p (reverse (drop_while p s))) in *.
  apply (f_equal reverse) in Hk. rewrite reverse_involutive, reverse_app in Hk.
  rewrite Hk in Hh. destruct (reverse u); [done|]. done.
Qed.

Lemma strip_with_last_ok s : last_ok (strip_with p s).
Proof.
  unfold strip_with. apply last_ok_reverse. rewrite reverse_involutive.
  apply drop_while_head_ok.
Qed.

Lemma strip_with_fixed s : head_ok s → last_ok s → strip_with p s = s.
Proof.
  intros Hh Hl. unfold strip_with.
  rewrite (drop_while_fixed s Hh).
  rewrite drop_while_fixed by (by apply last_ok_reverse).
  apply reverse_involutive.
Qed.

Lemma strip_with_sublist s : ∃ a b, s = a ++ strip_with p s ++ b.
Proof.
  unfold strip_with.
  destruct (drop_while_suffix s) as (k & Hk & _).
  destruct (drop_while_suffix (reverse (drop_while p s))) as (k' & Hk' & _).
  apply (f_equal reverse) in Hk'. rewrite reverse_involutive, reverse_app in Hk'.
  exists k, (reverse k'). by rewrite <- Hk'.
Qed.

End TextFacts.

Lemma replace_ws_run_head_ok s :
  head_ok is_whitespace s → head_ok is_whitespace (replace_ws_run s).
Proof. destruct s as [|c t]; simpl; [done|]. intros H. by rewrite H. Qed.

Lemma replace_ws_run_last s c :
  last s = Some c → is_whitespace c = false → last (replace_ws_run s) = Some c.
Proof.
  induction s as [|a t IH]; simpl; [done|].
  intros Hl Hc. destruct (is_whitespace a) eqn:E.
  - destruct t as [|b t']; [simpl in Hl; congruence|].
    assert (last (b :: t') = Some c) as Hl' by done.
    pose proof (last_drop_while is_whitespace _ _ Hl' Hc) as Hd.
    destruct (drop_while is_whitespace (b :: t')); [done|]. done.
  - destruct t as [|b t']; [done|].
    assert (last (b :: t') = Some c) as Hl' by done.
    specialize (IH Hl' Hc).
    destruct (replace_ws_run (b :: t')); [done|]. done.
Qed.

Lemma replace_ws_run_last_ok s :
  last_ok is_whitespace s → last_ok is_whitespace (replace_ws_run s).
Proof.
  unfold last_ok. destruct (last s) as [c|] eqn:E.
  - intros Hc. by rewrite (replace_ws_run_last s c E Hc).
  - apply last_None in E as ->. intros _. exact I.
Qed.

Lemma drop_while_idemp p s : drop_while p (drop_while p s) = drop_while p s.
Proof. apply drop_while_fixed, drop_while_head_ok. Qed.

Lemma replace_ws_run_idemp s : replace_ws_run (replace_ws_run s) = replace_ws_run s.
Proof.
  induction s as [|a t IH]; simpl; [done|].
  destruct (is_whitespace a) eqn:E; simpl.
  - by rewrite drop_while_idemp.
  - by rewrite E, IH.
Qed.

Lemma replace_ws_run_chars (P : N → Prop) s :
  P space → Forall P s → Forall P (replace_ws_run s).
Proof.
  intros Hsp. induction 1 as [|a t Ha Ht IH]; simpl; [done|].
  destruct (is_whitespace a).
  - constructor; [done|].
    destruct (drop_while_suffix is_whitespace t) as (k & Hk & _).
    rewrite Hk in Ht. by apply Forall_app in Ht as [_ ?].
  - by constructor.
Qed.

(** * The key normaliser *)

Lemma eval_normalize_key_expr upper_char e r :
  eval upper_char (normalize_key_expr e) r
  = on_str (normalize_key upper_char) (cast_utf8 (eval upper_char e r)).
Proof.
  unfold normalize_key_expr, normalize_key. simpl.
  by destruct (cast_utf8 (eval upper_char e r)).
Qed.

Lemma cast_utf8_on_str f v : cast_utf8 (on_str f v) = on_str f v.
Proof. by destruct v. Qed.

Section NormalizerFacts.

Variable upper_char : N → list N.

(** Two facts of the Unicode table: the code points of an upper-case
    mapping are their own upper case, and so is the space. *)
Hypothesis upper_fixed : ∀ c d, d ∈ upper_char c → upper_char d = [d].
Hypothesis upper_space : upper_char space = [space].

Local Abbreviation fixed := (λ d, upper_char d = [d]).

Lemma to_uppercase_fixed s : Forall fixed s → to_uppercase upper_char s = s.
Proof.
  unfold to_uppercase. induction 1 as [|c t Hc Ht IH]; [done|].
  change ((c :: t) ≫= upper_char) with (upper_char c ++ (t ≫= upper_char)).
  by rewrite Hc, IH.
Qed.

Lemma to_uppercase_image s : Forall fixed (to_uppercase upper_char s).
Proof.
  unfold to_uppercase. apply Forall_forall. intros d Hd.
  apply list_elem_of_bind in Hd as (c & Hd & _). by apply (upper_fixed c).
Qed.

Lemma strip_chars_chars (P : N → Prop) s : Forall P s → Forall P (strip_chars s).
Proof.
  intros H. destruct (strip_with_sublist is_whitespace s) as (a & b & Hs).
  rewrite Hs in H. apply Forall_app in H as [_ H]. by apply Forall_app in H as [H _].
Qed.

Lemma normalize_key_idemp s :
  normalize_key upper_char (normalize_key upper_char s) = normalize_key upper_char s.
Proof.
  unfold normalize_key.
  set (x := strip_chars (to_uppercase upper_char s)).
  assert (Forall fixed (replace_ws_run x)) as Hfix.
  { apply replace_ws_run_chars; [done|].
    apply strip_chars_chars, to_uppercase_image. }
  rewrite (to_uppercase_fixed _ Hfix).
  unfold strip_chars at 1. rewrite strip_with_fixed.
  - apply replace_ws_run_idemp.
  - apply replace_ws_run_head_ok, strip_with_head_ok.
  - apply replace_ws_run_last_ok, strip_with_last_ok.
Qed.

(** C2. Join-key normalisation is idempotent: normalising a normalised
    value gives it back, for every cell (a null stays null). *)
Theorem normalize_key_expr_idempotent (e : expr) (r : row) :
  eval upper_char (normalize_key_expr (normalize_key_expr e)) r
  = eval upper_char (normalize_key_expr e) r.
Proof.
  rewrite !eval_normalize_key_expr, cast_utf8_on_str.
  destruct (cast_utf8 (eval upper_char e r)); simpl; try done.
  by rewrite normalize_key_idemp.
Qed.

End NormalizerFacts.

Lemma ascii_upper_fixed c d : d ∈ ascii_upper c → ascii_upper d = [d].
Proof.
  unfold ascii_upper.
  destruct ((97 <=? c) && (c <=? 122)) eqn:E; intros ->%list_elem_of_singleton.
  - apply andb_true_iff in E as [H1%N.leb_le H2%N.leb_le].
    destruct (97 <=? c - 32) eqn:E'; [apply N.leb_le in E'; lia|done].
  - by rewrite E.
Qed.

Lemma normalize_key_expr_idempotent_witness :
  eval ascii_upper
    (normalize_key_expr (normalize_key_expr (Col PRINCIPIO_ATIVO)))
    (Scenario.csv_row " Acido  acetil   salicilico ")
  = VStr (lit "ACIDO ACETIL   SALICILICO").
Proof.
  rewrite (normalize_key_expr_idempotent ascii_upper ascii_upper_fixed eq_refl).
  vm_compute. reflexivity.
Defined.

(** C1. The normaliser rewrites the first run of whitespace only: on a
    value with two interior runs that need rewriting the second one stays,
    where the specification has every run collapsed.  The example of the
    specification, with a single such run, gives the expected key. *)
Theorem normalize_key_expr_first_run_only :
  eval ascii_upper (normalize_key_expr (Col PRINCIPIO_ATIVO))
       (Scenario.csv_row "Acido  acetil  salicilico")
  = VStr (lit "ACIDO ACETIL  SALICILICO")
  ∧ normalize_key_spec ascii_upper (lit "Acido  acetil  salicilico")
    = lit "ACIDO ACETIL SALICILICO"
  ∧ eval ascii_upper (normalize_key_expr (Col PRINCIPIO_ATIVO))
         (Scenario.csv_row " Amoxicilina  500mg ")
    = eval ascii_upper (normalize_key_expr (Col PRINCIPIO_ATIVO))
           (Scenario.csv_row "AMOXICILINA 500MG").
Proof. by vm_compute. Qed.

(** * Loops that may raise *)

Lemma bind_Ok {A B} (m : result A) (f : A → result B) b :
  m ≫= f = Ok b ↔ ∃ a, m = Ok a ∧ f a = Ok b.
Proof.
  destruct m as [a|e]; simpl.
  - split; [by exists a|]. by intros (a' & [= ->] & ?).
  - split; [done|]. by intros (a' & ? & _).
Qed.

Lemma for_each_Ok {A B} (f : A → result B) l ys :
  for_each f l = Ok ys → Forall2 (λ x y, f x = Ok y) l ys.
Proof.
  revert ys. induction l as [|x t IH]; simpl; intros ys.
  - intros [= <-]. constructor.
  - intros (y & Hy & (ys' & Hys & [= <-])%bind_Ok)%bind_Ok.
    constructor; [done|]. by apply IH.
Qed.

Lemma for_each_Ok_intro {A B} (f : A → result B) l ys :
  Forall2 (λ x y, f x = Ok y) l ys → for_each f l = Ok ys.
Proof. induction 1 as [|x y t ys' Hxy _ IH]; simpl; [done|]. by rewrite Hxy, IH. Qed.

Lemma for_each_Err {A B} (f : A → result B) l x e :
  x ∈ l → f x = Err e → ∃ e', for_each f l = Err e'.
Proof.
  intros Hx Hf. destruct (for_each f l) as [ys|e'] eqn:E; [|by exists e'].
  apply for_each_Ok in E.
  apply list_elem_of_lookup in Hx as (i & Hi).
  destruct (Forall2_lookup_l _ _ _ _ _ E Hi) as (y & _ & Hy). congruence.
Qed.

(** * Year extraction *)

Section YearFacts.

Variable upper_char : N → list N.
Variable is_decimal_digit : N → bool.
Variable reorder : list row → list row.

Local Abbreviation is_year := (is_year is_decimal_digit).
Local Abbreviation search_year := (search_year is_decimal_digit).
Local Abbreviation year_from_filename := (year_from_filename is_decimal_digit).

Lemma is_year_length y : is_year y → length y = 4%nat.
Proof. by intros (c & d & -> & _). Qed.

Lemma search_year_None s :
  search_year s = None → ∀ pre y post, s = pre ++ y ++ post → ¬ is_year y.
Proof.
  induction s as [|a t IH]; intros Hs pre y post Heq Hy.
  - apply is_year_length in Hy. apply (f_equal length) in Heq.
    rewrite !length_app in Heq. simpl in Heq. lia.
  - destruct pre as [|a' pre].
    + destruct Hy as (c & d & -> & Hc & Hd). simpl in Heq.
      injection Heq as -> ->. simpl in Hs. by rewrite Hc, Hd in Hs.
    + injection Heq as -> Ht. eapply IH; [|done..].
      simpl in Hs. destruct t as [|b [|c [|d rest]]]; try done.
      by destruct (_ && _).
Qed.

Lemma search_year_Some s y :
  search_year s = Some y →
  is_year y ∧
  ∃ pre post, s = pre ++ y ++ post ∧
    ∀ pre' y' post', s = pre' ++ y' ++ post' → is_year y' →
                     (length pre ≤ length pre')%nat.
Proof.
  revert y. induction s as [|a t IH]; intros y Hs; [done|].
  simpl in Hs. destruct t as [|b [|c [|d rest]]]; try done.
  destruct ((a =? 50) && (b =? 48) && is_decimal_digit c && is_decimal_digit d) eqn:E.
  - injection Hs as <-.
    repeat apply andb_true_iff in E as [E ?].
    apply N.eqb_eq in E as ->. match goal with H : (b =? 48) = true |- _ =>
      apply N.eqb_eq in H as -> end.
    split; [by exists c, d|].
    exists [], rest. split; [done|]. intros; simpl; lia.
  - destruct (IH _ Hs) as (Hy & pre & post & Heq & Hmin).
    split; [done|]. exists (a :: pre), post. split; [by rewrite Heq at 1|].
    intros pre' y' post' Heq' Hy'. destruct pre' as [|a' pre'].
    + exfalso. destruct Hy' as (c' & d' & -> & Hc & Hd).
      injection Heq' as -> -> -> -> _. simpl in E. by rewrite Hc, Hd in E.
    + injection Heq' as _ Ht. simpl. specialize (Hmin _ _ _ Ht Hy'). lia.
Qed.

Lemma build_lazy_for_csv_year_Err path superset_cols lf dm e :
  year_from_filename path = Err e →
  build_lazy_for_csv upper_char is_decimal_digit path superset_cols lf dm = Err e.
Proof. unfold build_lazy_for_csv. by intros ->. Qed.

Lemma sorted_elem (l : list str) x : x ∈ sorted l ↔ x ∈ l.
Proof. unfold sorted. by rewrite merge_sort_Permutation. Qed.

Lemma main_aborts_without_year listing header scan dict_df fp e :
  fp ∈ listing → year_from_filename fp = Err e →
  ∃ e', main upper_char is_decimal_digit reorder listing header scan dict_df = Err e'.
Proof.
  intros Hin Hy. unfold main. apply sorted_elem in Hin.
  destruct (sorted listing) as [|f0 fs] eqn:Hs; [by eexists|].
  generalize dependent (f0 :: fs). intros files _ Hin.
  destruct (build_dict_table _ _ _) as [dm|]; simpl; [|by eexists].
  destruct (collect_columns _ _) as [cs|]; simpl; [|by eexists].
  edestruct (for_each_Err
               (λ fp, build_lazy_for_csv upper_char is_decimal_digit fp
                        (sorted (elements cs)) (scan fp) dm.1)) as (e' & ->);
    [exact Hin|by apply build_lazy_for_csv_year_Err|].
  by eexists.
Qed.

(** C9. A file whose base name holds no "20" followed by two digits makes
    year extraction raise, and the run abort; when the base name holds
    one, the year extracted is the leftmost such text. *)
Theorem year_from_filename_fatal_or_first listing header scan dict_df fp :
  fp ∈ listing →
  ((∀ pre y post, basename fp = pre ++ y ++ post → ¬ is_year y) →
     year_from_filename fp = Err (YearNotFound fp) ∧
     ∃ e, main upper_char is_decimal_digit reorder listing header scan dict_df = Err e)
  ∧ (∀ pre y post, basename fp = pre ++ y ++ post → is_year y →
     ∃ y0 pre0 post0,
       year_from_filename fp = Ok y0 ∧ is_year y0 ∧
       basename fp = pre0 ++ y0 ++ post0 ∧
       ∀ pre' y' post', basename fp = pre' ++ y' ++ post' → is_year y' →
                        (length pre0 ≤ length pre')%nat).
Proof.
  intros Hin.
  assert (year_from_filename fp
          = match search_year (basename fp) with
            | Some y => Ok y
            | None => Err (YearNotFound fp)
            end) as Hdef by done.
  destruct (search_year (basename fp)) as [y0|] eqn:E; split.
  - intros Hno. apply search_year_Some in E as (Hy0 & pre & post & Heq & _).
    by destruct (Hno _ _ _ Heq).
  - intros _ _ _ _ _. apply search_year_Some in E as (Hy0 & pre & post & Heq & Hmin).
    by exists y0, pre, post.
  - intros _. split; [done|]. by eapply main_aborts_without_year.
  - intros pre y post Heq Hy. by destruct (search_year_None _ E _ _ _ Heq).
Qed.

End YearFacts.

Lemma year_from_filename_fatal_or_first_witness :
  (∃ e, main ascii_upper ascii_digit id
          [Scenario.file_2020; lit "/data/2019/grouped_all.csv"]
          Scenario.header Scenario.scan Scenario.dict_df = Err e)
  ∧ ∃ y0 pre0 post0,
      year_from_filename ascii_digit (lit "/data/grouped_2020_2021.csv") = Ok y0 ∧
      is_year ascii_digit y0 ∧
      basename (lit "/data/grouped_2020_2021.csv") = pre0 ++ y0 ++ post0 ∧
      ∀ pre' y' post',
        basename (lit "/data/grouped_2020_2021.csv") = pre' ++ y' ++ post' →
        is_year ascii_digit y' → (length pre0 ≤ length pre')%nat.
Proof.
  split.
  - refine (proj2 (proj1 (year_from_filename_fatal_or_first
                            ascii_upper ascii_digit id _
                            Scenario.header Scenario.scan Scenario.dict_df
                            (lit "/data/2019/grouped_all.csv") _) _)).
    + vm_compute. apply list_elem_of_further, list_elem_of_here.
    + apply search_year_None. vm_compute. reflexivity.
  - refine (proj2 (year_from_filename_fatal_or_first
                     ascii_upper ascii_digit id [lit "/data/grouped_2020_2021.csv"]
                     Scenario.header Scenario.scan Scenario.dict_df
                     (lit "/data/grouped_2020_2021.csv") _)
                  (lit "grouped_2020_") (lit "2021") (lit ".csv") _ _).
    + apply list_elem_of_here.
    + vm_compute. reflexivity.
    + exists 50, 49. by vm_compute.
Defined.

(** * Sorting *)

Global Instance str_le_total : Total str_le.
Proof.
  intros a. unfold str_le. induction a as [|x a IH]; intros [|y b]; simpl; auto.
  destruct (N.ltb_spec x y), (N.ltb_spec y x), (N.eqb_spec x y), (N.eqb_spec y x);
    simpl; auto; try lia.
Qed.

Global Instance str_le_trans : Transitive str_le.
Proof.
  intros a. unfold str_le. induction a as [|x a IH]; intros [|y b] [|z c]; simpl; auto;
    try done.
  destruct (N.ltb_spec x y), (N.ltb_spec y z), (N.ltb_spec x z),
    (N.eqb_spec x y), (N.eqb_spec y z), (N.eqb_spec x z); simpl; auto; try lia; try done.
  apply IH.
Qed.

Global Instance str_le_antisym : AntiSymm (=) str_le.
Proof.
  intros a. unfold str_le. induction a as [|x a IH]; intros [|y b]; simpl; auto;
    try done.
  destruct (N.ltb_spec x y), (N.ltb_spec y x), (N.eqb_spec x y), (N.eqb_spec y x);
    simpl; try lia; try done.
  intros Hab Hba. subst. f_equal. by apply IH.
Qed.

Lemma sorted_Sorted l : Sorted str_le (sorted l).
Proof. apply Sorted_merge_sort; apply _. Qed.

Lemma sorted_Permutation l : sorted l ≡ₚ l.
Proof. apply merge_sort_Permutation. Qed.

(** [sorted] forgets the order in which it is given its elements. *)
Lemma sorted_perm_eq l1 l2 : l1 ≡ₚ l2 → sorted l1 = sorted l2.
Proof.
  intros H. apply (Sorted_unique str_le); try apply sorted_Sorted.
  by rewrite !sorted_Permutation.
Qed.

Lemma sorted_NoDup l : NoDup l → NoDup (sorted l).
Proof. by rewrite sorted_Permutation. Qed.

Lemma first_dup_None l : first_dup l = None ↔ NoDup l.
Proof.
  induction l as [|c t IH]; simpl.
  - split; [constructor|done].
  - rewrite NoDup_cons. case_bool_decide; [|by rewrite IH; tauto].
    split; [done|]. by intros [? _].
Qed.

Lemma lookup_dtype_Ok sch c t : lookup_dtype sch c = Ok t → (c, t) ∈ sch.
Proof.
  unfold lookup_dtype. destruct (list_find _ sch) as [[i [c' t']]|] eqn:E; [|done].
  intros [= ->]. apply list_find_Some in E as (Hi & Hc & _). simpl in Hc. subst.
  by eapply list_elem_of_lookup_2.
Qed.

Lemma lookup_dtype_is_Ok sch c : c ∈ sch.*1 → ∃ t, lookup_dtype sch c = Ok t.
Proof.
  intros (ct & -> & Hct)%list_elem_of_fmap. unfold lookup_dtype.
  destruct (list_find (λ ct0, ct0.1 = ct.1) sch) as [[i [c' t']]|] eqn:E; [by eexists|].
  apply list_find_None in E. rewrite Forall_forall in E. by destruct (E _ Hct).
Qed.

Lemma lookup_dtype_Err sch c e : lookup_dtype sch c = Err e → c ∉ sch.*1.
Proof.
  intros H Hin. apply lookup_dtype_is_Ok in Hin as (t & Ht). congruence.
Qed.

(** * The schema unifier *)

Lemma collect_columns_from (header : str → list str) (files : list str)
    (init cs : gset str) :
  fold_each (λ (col_set : gset str) fp,
               match header fp with
               | [] => Err (EmptyHeader fp)
               | cols => Ok (col_set ∪ list_to_set cols)
               end) init files = Ok cs →
  ∀ c, c ∈ cs ↔ c ∈ init ∨ ∃ fp, fp ∈ files ∧ c ∈ header fp.
Proof.
  revert init. induction files as [|fp t IH]; intros init.
  - intros [= <-] c. split; [by left|]. intros [?|(fp & Hfp & _)]; [done|].
    by apply not_elem_of_nil in Hfp.
  - cbn [fold_each]. destruct (header fp) as [|c0 cols] eqn:Hh; [done|].
    cbn [mbind result_bind].
    intros H c. rewrite (IH _ H c), elem_of_union, elem_of_list_to_set.
    split.
    + intros [[?|Hc]|(fp' & Hfp' & Hc)]; [by left| |].
      * right. exists fp. rewrite Hh. split; [left|done].
      * right. exists fp'. split; [by right|done].
    + intros [?|(fp' & [->|Hfp']%elem_of_cons & Hc)]; [by left; left| |].
      * left; right. by rewrite <- Hh.
      * right. by exists fp'.
Qed.

Lemma collect_columns_elem (header : str → list str) (files : list str) cs :
  collect_columns header files = Ok cs →
  ∀ c, c ∈ cs ↔ ∃ fp, fp ∈ files ∧ c ∈ header fp.
Proof.
  intros H c. rewrite (collect_columns_from _ _ _ _ H c).
  split; [intros [Hc|?]; [by apply not_elem_of_empty in Hc|done]|by right].
Qed.

Section SchemaFacts.

Variable upper_char : N → list N.

Lemma selected_names sup lf_cols : (selected sup lf_cols).*2 = sup.
Proof.
  unfold selected. induction sup as [|c t IH]; [done|].
  rewrite !fmap_cons, IH. by case_bool_decide.
Qed.

Lemma selected_dtypes sch sup :
  for_each (λ ea : aliased, t ← dtype_of sch ea.1; Ok (ea.2, t))
           (selected sup sch.*1)
  = Ok ((λ c, (c, Utf8)) <$> sup).
Proof.
  unfold selected. induction sup as [|c t IH]; [done|].
  rewrite !fmap_cons. simpl. rewrite IH. case_bool_decide as Hc; simpl; [|done].
  by destruct (lookup_dtype_is_Ok _ _ Hc) as (t0 & ->).
Qed.

Lemma project_Ok sup lf :
  NoDup sup →
  project upper_char sup lf
  = Ok (Frame ((λ c, (c, Utf8)) <$> sup)
          ((λ r, list_to_map ((λ ea : aliased, (ea.2, eval upper_char ea.1 r))
                                <$> selected sup (names lf))) <$> rows lf)).
Proof.
  intros Hnd. unfold project, select, names.
  rewrite selected_dtypes. simpl. rewrite selected_names.
  by apply first_dup_None in Hnd as ->.
Qed.

(** C8. Every per-file projection has exactly the columns of the global
    superset, the sorted union of the headers of all files, each of type
    text; and so has every row of it. *)
Theorem project_has_exactly_superset header files col_set lf :
  collect_columns header files = Ok col_set →
  let superset_cols := sorted (elements col_set) in
  (∀ c, c ∈ superset_cols ↔ ∃ fp, fp ∈ files ∧ c ∈ header fp) ∧
  Sorted str_le superset_cols ∧ NoDup superset_cols ∧
  ∃ p, project upper_char superset_cols lf = Ok p ∧
       schema p = (λ c, (c, Utf8)) <$> superset_cols ∧
       length (rows p) = length (rows lf) ∧
       ∀ r, r ∈ rows p → ∀ c, is_Some (r !! c) ↔ c ∈ superset_cols.
Proof.
  intros Hcs sup.
  assert (NoDup sup) as Hnd by apply sorted_NoDup, NoDup_elements.
  split; [|split; [apply sorted_Sorted|split; [done|]]].
  - intros c. unfold sup. rewrite sorted_elem, elem_of_elements.
    by apply collect_columns_elem.
  - eexists. split; [by apply project_Ok|]. simpl.
    split; [done|]. split; [by rewrite length_fmap|].
    intros r (r0 & -> & _)%list_elem_of_fmap c.
    rewrite <- elem_of_dom, dom_list_to_map_L, elem_of_list_to_set.
    rewrite <- list_fmap_compose.
    replace ((fst ∘ (λ ea : aliased, (ea.2, eval upper_char ea.1 r0)))
               <$> selected sup (names lf))
      with ((selected sup (names lf)).*2) by (by apply list_fmap_ext).
    by rewrite selected_names.
Qed.

End SchemaFacts.

Lemma project_has_exactly_superset_witness :
  ∃ p, project ascii_upper
         (sorted (elements (list_to_set [PRINCIPIO_ATIVO; ANO_VENDA] : gset str)))
         (Scenario.scan Scenario.file_2020) = Ok p ∧
       names p = [ANO_VENDA; PRINCIPIO_ATIVO].
Proof.
  destruct (project_has_exactly_superset ascii_upper
              (λ _, [PRINCIPIO_ATIVO; ANO_VENDA]) [Scenario.file_2020]
              (list_to_set [PRINCIPIO_ATIVO; ANO_VENDA])
              (Scenario.scan Scenario.file_2020))
    as (_ & _ & _ & p & Hp & Hs & _).
  - vm_compute. reflexivity.
  - exists p. split; [exact Hp|]. unfold names. rewrite Hs. vm_compute. reflexivity.
Defined.

(** * Frame operations, inverted *)

Ltac ok_inv H :=
  repeat match type of H with
  | _ ≫= _ = Ok _ =>
      let x := fresh "x" in let Hx := fresh "H" x in
      apply bind_Ok in H as (x & Hx & H)
  | Ok _ = Ok _ => injection H as H
  | mret _ = Ok _ => injection H as H
  end.

Lemma need_Ok a b u : need a b = Ok u → a = b.
Proof. unfold need. by case_decide. Qed.

Lemma bind_singleton {A B} (f : A → list B) (g : A → B) l :
  (∀ x, x ∈ l → f x = [g x]) → l ≫= f = g <$> l.
Proof.
  induction l as [|x t IH]; intros H; [done|].
  change ((x :: t) ≫= f) with (f x ++ (t ≫= f)).
  rewrite H by left. rewrite IH; [done|]. intros y Hy. apply H. by right.
Qed.

Section FrameFacts.

Variable upper_char : N → list N.

Lemma with_columns_Ok e name f g :
  with_columns upper_char e name f = Ok g →
  ∃ t, dtype_of (schema f) e = Ok t ∧
       schema g = set_dtype (schema f) name t ∧
       rows g = (λ r, <[name := eval upper_char e r]> r) <$> rows f.
Proof. unfold with_columns. intros H. ok_inv H. subst g. by eexists. Qed.

Lemma set_dtype_names sch c t :
  (set_dtype sch c t).*1 = if bool_decide (c ∈ sch.*1) then sch.*1 else sch.*1 ++ [c].
Proof.
  unfold set_dtype. case_bool_decide; [|by rewrite fmap_app].
  rewrite <- list_fmap_compose. apply list_fmap_ext. intros i [c' t'] _. simpl.
  by case_decide.
Qed.

Lemma set_dtype_elem sch c t x : x ∈ (set_dtype sch c t).*1 ↔ x = c ∨ x ∈ sch.*1.
Proof.
  rewrite set_dtype_names. case_bool_decide as Hc.
  - split; [by right|]. by intros [->|?].
  - rewrite elem_of_app, list_elem_of_singleton. tauto.
Qed.

Lemma with_row_index_Ok name offset f g :
  with_row_index name offset f = Ok g →
  (name ∉ names f) ∧
  schema g = (name, UInt32) :: schema f ∧
  rows g = imap (λ i r, <[name := VUInt (offset + N.of_nat i)]> r) (rows f).
Proof.
  unfold with_row_index. case_bool_decide; [done|]. intros [= <-]. done.
Qed.

Lemma join_left_Ok on l r out :
  join_left on l r = Ok out →
  one_row_per_key on (rows r) →
  schema out
  = schema l ++ ((λ ct, (join_name (names l) ct.1, ct.2)) <$> payload on r) ∧
  NoDup (names out) ∧
  rows out
  = (λ lr, lr ∪ attach (names l) (payload on r).*1 (matching_row on (rows r) lr))
    <$> rows l.
Proof.
  unfold join_left. intros H Hone. ok_inv H.
  case_decide; [|done].
  destruct (first_dup _) eqn:Hdup; [done|]. injection H as <-. simpl.
  split; [done|]. split.
  { apply first_dup_None in Hdup. unfold names. simpl. by rewrite fmap_app. }
  apply bind_singleton. intros lr _. unfold matching_row.
  specialize (Hone (field lr on)).
  destruct (filter _ (rows r)) as [|m [|m' ms]]; simpl in *; [done|done|lia].
Qed.

Lemma field_insert (r : row) c v c' :
  field (<[c := v]> r) c' = if decide (c = c') then v else field r c'.
Proof. unfold field. rewrite lookup_insert. by case_decide. Qed.

Lemma field_union_l (r1 r2 : row) c : is_Some (r1 !! c) → field (r1 ∪ r2) c = field r1 c.
Proof. intros [v Hv]. unfold field. by rewrite (lookup_union_Some_l _ _ _ _ Hv), Hv. Qed.



End FrameFacts.

(** * The row enricher *)

Section EnricherFacts.

Variable upper_char : N → list N.
Variable is_decimal_digit : N → bool.

Local Abbreviation build_csv := (build_lazy_for_csv upper_char is_decimal_digit).
Local Abbreviation year_from_filename := (year_from_filename is_decimal_digit).

Lemma project_inv sup lf p :
  project upper_char sup lf = Ok p →
  NoDup sup ∧ schema p = (λ c, (c, Utf8)) <$> sup ∧
  rows p = project_row upper_char sup (names lf) <$> rows lf.
Proof.
  intros H. assert (NoDup sup) as Hnd.
  { unfold project, select, names in H. rewrite selected_dtypes in H.
    simpl in H. rewrite selected_names in H.
    destruct (first_dup sup) eqn:E; [done|]. by apply first_dup_None. }
  rewrite (project_Ok _ _ _ Hnd) in H. by injection H as <-.
Qed.

(** The frame on which [build_lazy_for_csv] synthesizes the identifier:
    its columns and its rows. *)
Lemma build_lazy_for_csv_numbered path sup lf dm out :
  build_csv path sup lf dm = Ok out →
  ∃ y f3,
    year_from_filename path = Ok y ∧ NoDup sup ∧
    (∀ x, x ∈ names f3 ↔ x = row_number ∨ x ∈ sup ∨ x = ano ∨ x = ID) ∧
    rows f3 = imap (numbered_row upper_char y sup (names lf)) (rows lf) ∧
    (if bool_decide (PRINCIPIO_ATIVO ∈ sup) then
       f4 ← with_columns upper_char (normalize_key_expr (Col PRINCIPIO_ATIVO)) key_norm f3;
       join_left key_norm f4 dm
     else with_columns upper_char LitNull key_norm f3) = Ok out.
Proof.
  unfold build_lazy_for_csv. intros H.
  apply bind_Ok in H as (y & Hy & H).
  apply bind_Ok in H as (p & Hp & H).
  apply bind_Ok in H as (f1 & Hf1 & H).
  apply bind_Ok in H as (f2 & Hf2 & H).
  apply bind_Ok in H as (f3 & Hf3 & H).
  exists y, f3. split; [done|].
  apply project_inv in Hp as (Hnd & Hsp & Hrp).
  apply with_columns_Ok in Hf1 as (t1 & _ & Hs1 & Hr1).
  apply with_row_index_Ok in Hf2 as (_ & Hs2 & Hr2).
  apply with_columns_Ok in Hf3 as (t3 & _ & Hs3 & Hr3).
  split; [done|]. split; [|split; [|done]].
  - intros x. unfold names. rewrite Hs3, set_dtype_elem, Hs2, fmap_cons, elem_of_cons.
    rewrite Hs1, set_dtype_elem, Hsp. simpl.
    rewrite <- list_fmap_compose, list_fmap_id. tauto.
  - rewrite Hr3, Hr2, Hr1, Hrp, fmap_imap, imap_fmap, imap_fmap. done.
Qed.



End EnricherFacts.

(** * Decimal text *)






Lemma digits_value_acc a s :
  digits_value a s = a * 10 ^ N.of_nat (length s) + digits_value 0 s.
Proof.
  revert a. induction s as [|c t IH]; intros a; simpl length.
  - simpl. lia.
  - cbn [digits_value]. rewrite (IH (10 * a + (c - 48))), (IH (10 * 0 + (c - 48))).
    replace (N.of_nat (S (length t))) with (N.succ (N.of_nat (length t))) by lia.
    rewrite N.pow_succ_r'. lia.
Qed.

Lemma decimal_aux_value fuel n acc :
  n < 2 ^ N.of_nat fuel →
  digits_value 0 (decimal_aux fuel n acc)
  = n * 10 ^ N.of_nat (length acc) + digits_value 0 acc.
Proof.
  revert n acc. induction fuel as [|fuel IH]; intros n acc Hn.
  - simpl in Hn. assert (n = 0) as -> by lia. simpl. lia.
  - cbn [decimal_aux]. cbv zeta.
    pose proof (N.Div0.div_mod n 10) as Hdm.
    pose proof (N.mod_upper_bound n 10 ltac:(lia)) as Hm.
    pose proof (N.le_0_l (n mod 10)) as Hm0.
    pose proof (N.le_0_l (n / 10)) as Hq0.
    assert (digits_value 0 ((48 + n mod 10) :: acc)
            = n mod 10 * 10 ^ N.of_nat (length acc) + digits_value 0 acc) as Hd.
    { cbn [digits_value]. rewrite digits_value_acc. f_equal. f_equal. lia. }
    destruct (N.eqb_spec (n / 10) 0) as [E|E].
    + rewrite Hd. f_equal. f_equal. rewrite E in Hdm. lia.
    + rewrite IH, Hd.
      * simpl length.
        replace (N.of_nat (S (length acc))) with (N.succ (N.of_nat (length acc))) by lia.
        rewrite N.pow_succ_r'. set (q := n / 10) in *. set (m := n mod 10) in *.
        set (P := 10 ^ N.of_nat (length acc)).
        assert (n * P = (10 * q + m) * P) as -> by (f_equal; exact Hdm). lia.
      * replace (N.of_nat (S fuel)) with (N.succ (N.of_nat fuel)) in Hn by lia.
        rewrite N.pow_succ_r' in Hn.
        apply N.Div0.div_lt_upper_bound. lia.
Qed.

(** The decimal text of a number reads back as that number: no two
    sequence numbers share a text. *)
Lemma decimal_value n : digits_value 0 (decimal n) = n.
Proof.
  unfold decimal. rewrite decimal_aux_value; [simpl; lia|].
  replace (N.of_nat (S (N.to_nat (N.size n)))) with (N.succ (N.size n)) by lia.
  rewrite N.pow_succ_r'. pose proof (N.size_gt n). lia.
Qed.

Lemma decimal_inj n m : decimal n = decimal m → n = m.
Proof. intros H. by rewrite <- (decimal_value n), H, decimal_value. Qed.

(** * Lists: first occurrences *)

Lemma filter_fmap_comm {A B} (f : A → B) (P : B → Prop) `{!∀ x, Decision (P x)}
    (l : list A) :
  filter P (f <$> l) = f <$> filter (λ x, P (f x)) l.
Proof.
  induction l as [|x t IH]; [done|].
  rewrite fmap_cons, !filter_cons, IH. by case_decide.
Qed.

Lemma filter_bind_comm {A B} (f : A → list B) (P : B → Prop) `{!∀ x, Decision (P x)}
    (l : list A) :
  filter P (l ≫= f) = l ≫= λ x, filter P (f x).
Proof.
  induction l as [|x t IH]; [done|].
  change ((x :: t) ≫= f) with (f x ++ (t ≫= f)). by rewrite filter_app, IH.
Qed.

Lemma head_fmap {A B} (f : A → B) (l : list A) : head (f <$> l) = f <$> head l.
Proof. by destruct l. Qed.

Lemma filter_none {A} (P : A → Prop) `{!∀ x, Decision (P x)} (l : list A) :
  (∀ x, ¬ P x) → filter P l = [].
Proof.
  intros Hno. induction l as [|x t IH]; [done|]. by rewrite filter_cons_False.
Qed.

(** Among the rows [keep_first] keeps, those with a given key are the
    first row of the input with that key, and nothing else. *)
Lemma keep_first_filter (key : row → value) (l : list row) (v : value) :
  filter (λ r, key r = v) (keep_first key l)
  = option_list (head (filter (λ r, key r = v) l)).
Proof.
  induction l as [|r t IH]; [done|].
  cbn [keep_first]. rewrite !filter_cons. case_decide as Hk.
  - simpl. f_equal. rewrite list_filter_filter.
    apply filter_none. intros x [? ?]. congruence.
  - rewrite list_filter_filter_l; [done|]. intros x Hx. congruence.
Qed.

Lemma option_list_perm {A} (l : list A) (o : option A) :
  l ≡ₚ option_list o → l = option_list o.
Proof.
  destruct o; simpl; [apply Permutation_singleton_r|apply Permutation_nil_r].
Qed.

(** * The dictionary builder *)

Lemma for_each_names (sch : list (str * dtype)) (cols : list str) ti :
  for_each (λ c, t ← lookup_dtype sch c; Ok (c, t)) cols = Ok ti →
  ti.*1 = cols ∧ ∀ ct, ct ∈ ti → ct ∈ sch.
Proof.
  revert ti. induction cols as [|c t IH]; intros ti H.
  - injection H as <-. split; [done|]. intros ct Hct. by apply not_elem_of_nil in Hct.
  - cbn [for_each] in H.
    apply bind_Ok in H as (y & Hy & H). apply bind_Ok in Hy as (t0 & Ht0 & [= <-]).
    apply bind_Ok in H as (ys & Hys & [= <-]).
    destruct (IH _ Hys) as [IH1 IH2]. split; [by rewrite fmap_cons, IH1|].
    intros ct [->|?]%elem_of_cons; [by apply lookup_dtype_Ok|by apply IH2].
Qed.

Lemma map_filter_drop (cols : list str) (r : row) c :
  field (filter (λ kv, kv.1 ∉ cols) r) c = if decide (c ∈ cols) then VNull else field r c.
Proof.
  unfold field. rewrite map_lookup_filter.
  destruct (r !! c) as [v|] eqn:E; simpl; [|by case_decide].
  case_guard; case_decide; simpl in *; done.
Qed.

Lemma drop_columns_Ok cols f g :
  drop_columns cols f = Ok g →
  schema g = filter (λ ct, ct.1 ∉ cols) (schema f) ∧
  rows g = (λ r : row, filter (λ kv, kv.1 ∉ cols) r) <$> rows f.
Proof. unfold drop_columns. intros H. ok_inv H. by subst g. Qed.

Lemma filter_rows_Ok upper_char e f g :
  filter_rows upper_char e f = Ok g →
  schema g = schema f ∧
  rows g = filter (λ r, eval upper_char e r = VBool true) (rows f).
Proof. unfold filter_rows. intros H. ok_inv H. by subst g. Qed.

Lemma unique_Ok reorder c f g :
  unique reorder c f = Ok g →
  schema g = schema f ∧
  rows g = reorder (keep_first (λ r, field r c) (rows f)).
Proof. unfold unique. intros H. ok_inv H. by subst g. Qed.

Lemma unpivot_Ok index on variable_name value_name f g :
  unpivot index on variable_name value_name f = Ok g →
  ∃ ti t,
    ti.*1 = index ∧ (∀ ct, ct ∈ ti → ct ∈ schema f) ∧
    NoDup (index ++ [variable_name; value_name]) ∧
    schema g = ti ++ [(variable_name, Utf8); (value_name, t)] ∧
    rows g = on ≫= λ c,
      (λ r : row,
         <[value_name := field r c]>
           (<[variable_name := VStr c]>
              (list_to_map ((λ i, (i, field r i)) <$> index))))
      <$> rows f.
Proof.
  unfold unpivot. intros H. ok_inv H.
  destruct (first_dup _) eqn:E; [done|]. injection H as <-.
  apply for_each_names in Hx as [? ?]. apply first_dup_None in E.
  by eexists _, _.
Qed.

Lemma keep_first_subset key l r : r ∈ keep_first key l → r ∈ l.
Proof.
  revert r. induction l as [|x t IH]; intros r; [done|].
  cbn [keep_first]. intros [->|Hr]%elem_of_cons; [left|right].
  apply list_elem_of_filter in Hr as [_ Hr]. by apply IH.
Qed.

Lemma filter_all {A} (P : A → Prop) `{!∀ x, Decision (P x)} (l : list A) :
  (∀ x, x ∈ l → P x) → filter P l = l.
Proof.
  induction l as [|x t IH]; intros Hall; [done|].
  rewrite filter_cons_True by (apply Hall; left).
  f_equal. apply IH. intros y Hy. apply Hall. by right.
Qed.

Lemma fmap_ext_in {A B} (f g : A → B) (l : list A) :
  (∀ x, x ∈ l → f x = g x) → f <$> l = g <$> l.
Proof.
  intros H. apply list_fmap_ext. intros i x Hi. apply H.
  by eapply list_elem_of_lookup_2.
Qed.

Lemma bind_ext_in {A B} (f g : A → list B) (l : list A) :
  (∀ x, x ∈ l → f x = g x) → l ≫= f = l ≫= g.
Proof.
  induction l as [|x t IH]; intros H; [done|].
  change ((x :: t) ≫= f = (x :: t) ≫= g) with (f x ++ (t ≫= f) = g x ++ (t ≫= g)).
  rewrite H by left. f_equal. apply IH. intros y Hy. apply H. by right.
Qed.

Lemma starts_with_app p s : starts_with p (p ++ s) = true.
Proof. induction p as [|a p IH]; [done|]. simpl. by rewrite N.eqb_refl, IH. Qed.

Lemma not_norm_ne c x : starts_with norm_ x = false → x ≠ norm_ ++ c.
Proof. intros H ->. by rewrite starts_with_app in H. Qed.

(** [sanitize_df_columns] removes columns of blank name, nothing else. *)
Lemma sanitize_df_columns_Ok df df0 :
  sanitize_df_columns df = Ok df0 →
  ∃ dc : list str,
    (∀ c, c ∈ dc → py_strip c = []) ∧
        schema df0 = filter (λ ct, ct.1 ∉ dc) (schema df) ∧
        rows df0 = (λ r : row, filter (λ kv, kv.1 ∉ dc) r) <$> rows df.
Proof.
  unfold sanitize_df_columns.
  destruct (filter (λ c, py_strip c = []) (names df)) as [|c0 dc] eqn:E.
  - intros [= <-]. exists []. split; [by intros c Hc; apply not_elem_of_nil in Hc|].
    split.
    + symmetry. apply filter_all. intros ct _. apply not_elem_of_nil.
    + rewrite <- (list_fmap_id (rows df)) at 1. apply fmap_ext_in. intros r _.
      symmetry. apply map_filter_id. intros i x _. apply not_elem_of_nil.
  - intros H. apply drop_columns_Ok in H as [Hs Hr]. exists (c0 :: dc).
    split; [|done]. intros c Hc. rewrite <- E in Hc.
    by apply list_elem_of_filter in Hc as [Hc _].
Qed.

Section DictFacts.

Variable upper_char : N → list N.

Local Abbreviation nkey := (normalize_key upper_char).
Local Abbreviation normed := (normed_row upper_char).

Lemma normed_row_cons (c : str) (cs : list str) (r : row) :
  normed (c :: cs) r
  = normed cs (<[norm_ ++ c := on_str nkey (cast_utf8 (field r c))]> r).
Proof.
  unfold normed_row. cbn [foldl]. by rewrite eval_normalize_key_expr.
Qed.

Lemma normed_row_other (cols : list str) (r : row) (x : str) :
  (∀ c, c ∈ cols → x ≠ norm_ ++ c) → normed cols r !! x = r !! x.
Proof.
  revert r. induction cols as [|c cs IH]; intros r H; [done|].
  rewrite normed_row_cons, IH.
  - apply lookup_insert_ne. intros Heq. by apply (H c); [left|].
  - intros c' Hc'. apply H. by right.
Qed.

Lemma normed_row_field (cols : list str) (r : row) (x : str) :
  starts_with norm_ x = false → field (normed cols r) x = field r x.
Proof.
  intros Hx. unfold field. rewrite normed_row_other; [done|].
  intros c _. by apply not_norm_ne.
Qed.

Lemma normed_row_key (cols : list str) (r : row) (c : str) :
  c ∈ cols → (∀ c', c' ∈ cols → starts_with norm_ c' = false) →
  field (normed cols r) (norm_ ++ c) = on_str nkey (cast_utf8 (field r c)).
Proof.
  revert r. induction cols as [|c0 cs IH]; intros r Hc Hall.
  { by apply not_elem_of_nil in Hc. }
  rewrite normed_row_cons. destruct (decide (c ∈ cs)) as [Hin|Hnin].
  - rewrite IH; [|done|by intros c' Hc'; apply Hall; right].
    rewrite field_insert. rewrite decide_False; [done|].
    intros Heq. symmetry in Heq. revert Heq. apply not_norm_ne, Hall.
    by right.
  - apply elem_of_cons in Hc as [->|?]; [|done].
    unfold field at 1. rewrite normed_row_other.
    + by rewrite lookup_insert_eq.
    + intros c' Hc' Heq. apply app_inv_head in Heq. by subst.
Qed.

Lemma normalize_loop_Ok (cols : list str) (df0 df1 : frame) :
  fold_each (λ df c, with_columns upper_char (normalize_key_expr (Col c))
                       (norm_ ++ c) df) df0 cols = Ok df1 →
  rows df1 = normed cols <$> rows df0 ∧
  ∀ x, x ∈ names df1 ↔ x ∈ names df0 ∨ ∃ c, c ∈ cols ∧ x = norm_ ++ c.
Proof.
  revert df0. induction cols as [|c cs IH]; intros df0 H.
  - injection H as <-. split; [by rewrite list_fmap_id|].
    intros x. split; [by left|]. intros [?|(c & Hc & _)]; [done|].
    by apply not_elem_of_nil in Hc.
  - cbn [fold_each] in H. apply bind_Ok in H as (df' & Hdf' & H).
    apply with_columns_Ok in Hdf' as (t & _ & Hs & Hr).
    destruct (IH _ H) as [IHr IHn]. split.
    + rewrite IHr, Hr, <- list_fmap_compose. apply fmap_ext_in. intros r _.
      unfold compose. by rewrite normed_row_cons, eval_normalize_key_expr.
    + intros x. rewrite IHn. unfold names at 1. rewrite Hs, set_dtype_elem.
      split.
      * intros [[->|?]|(c' & Hc' & ->)]; [right|by left|right].
        -- exists c. split; [left|done].
        -- exists c'. split; [by right|done].
      * intros [?|(c' & [->|Hc']%elem_of_cons & ->)];
          [by left; right|by left; left|right]. by exists c'.
Qed.

End DictFacts.

Lemma filter_ext_in {A} (P Q : A → Prop) `{!∀ x, Decision (P x), !∀ x, Decision (Q x)}
    (l : list A) :
  (∀ x, x ∈ l → P x ↔ Q x) → filter P l = filter Q l.
Proof.
  induction l as [|x t IH]; intros Hext; [done|].
  rewrite !filter_cons, IH by (intros y Hy; apply Hext; by right).
  pose proof (Hext x ltac:(left)) as Hx.
  destruct (decide (P x)), (decide (Q x)); tauto || done.
Qed.

Lemma alias_columns_plain c :
  c ∈ alias_columns → py_strip c ≠ [] ∧ starts_with norm_ c = false.
Proof.
  unfold alias_columns. rewrite !elem_of_cons, elem_of_nil.
  intros [->|[->|[->|[]]]]; by vm_compute.
Qed.

Lemma key_cols_of_elem df c : c ∈ key_cols_of df → c ∈ alias_columns ∧ c ∈ names df.
Proof. unfold key_cols_of. rewrite list_elem_of_filter. tauto. Qed.

Section DictTable.

Variable upper_char : N → list N.
Variable reorder : list row → list row.

Local Abbreviation nkey := (normalize_key upper_char).

(** What [build_dict_table] returns, step by step undone: the columns of
    the mapping and its rows, from the rows of the dictionary. *)
Lemma build_dict_table_Ok dict_df dm descs :
  build_dict_table upper_char reorder dict_df = Ok (dm, descs) →
  NoDup (descs ++ [alias_col; key_norm]) ∧
  (∃ ti T, ti.*1 = descs ∧ schema dm = ti ++ [(key_norm, T)]) ∧
  rows dm
  = (λ r : row, filter (λ kv, kv.1 ∉ [alias_col]) r)
    <$> reorder
          (keep_first (λ r, field r key_norm)
             (filter (λ r, eval upper_char key_present r = VBool true)
                (key_cols_of dict_df ≫= λ c,
                   long_row upper_char descs c <$> rows dict_df))).
Proof.
  unfold build_dict_table. intros H.
  apply bind_Ok in H as (df0 & Hdf0 & H).
  apply sanitize_df_columns_Ok in Hdf0 as (dc & Hdc & Hs0 & Hr0).
  assert (∀ c, c ∈ names df0 ↔ c ∈ names dict_df ∧ c ∉ dc) as Hn0.
  { intros c. unfold names. rewrite Hs0, !list_elem_of_fmap. split.
    - intros (ct & -> & Hct). apply list_elem_of_filter in Hct as [? ?].
      split; [by exists ct|done].
    - intros [(ct & -> & Hct) ?]. exists ct. split; [done|].
      by apply list_elem_of_filter. }
  assert (key_cols_of df0 = key_cols_of dict_df) as Hkc.
  { unfold key_cols_of. apply filter_ext_in. intros c Hc. rewrite Hn0.
    split; [tauto|]. intros ?. split; [done|]. intros Hin.
    apply Hdc in Hin. by apply alias_columns_plain in Hc as [? _]. }
  rewrite Hkc in H. set (kc := key_cols_of dict_df) in *.
  assert (∀ c, c ∈ kc → starts_with norm_ c = false ∧ c ∉ dc) as Hkc_plain.
  { intros c [Hc _]%key_cols_of_elem. apply alias_columns_plain in Hc as [? ?].
    split; [done|]. intros Hin. by apply Hdc in Hin. }
  destruct kc as [|k0 ks] eqn:Ekc; [done|]. rewrite <- Ekc in *. clear Ekc k0 ks.
  apply bind_Ok in H as (df1 & Hdf1 & H).
  apply normalize_loop_Ok in Hdf1 as [Hr1 Hn1].
  apply bind_Ok in H as (long0 & Hl0 & H).
  apply bind_Ok in H as (long1 & Hl1 & H).
  apply bind_Ok in H as (long2 & Hl2 & H).
  apply bind_Ok in H as (long3 & Hl3 & H).
  injection H as -> <-.
  set (descs := descriptor_cols_of kc df1) in *.
  apply unpivot_Ok in Hl0 as (ti & T & Hti & _ & Hnd & Hs0' & Hr0').
  apply filter_rows_Ok in Hl1 as [Hs1 Hr1'].
  apply unique_Ok in Hl2 as [Hs2 Hr2].
  assert (alias_col ∈ names long2) as Hal.
  { unfold names. rewrite Hs2, Hs1, Hs0', fmap_app. apply elem_of_app. right. left. }
  rewrite bool_decide_eq_true_2 in Hl3 by done.
  apply drop_columns_Ok in Hl3 as [Hs3 Hr3].
  split; [done|]. split.
  - exists ti, T. split; [done|]. rewrite Hs3, Hs2, Hs1, Hs0', filter_app.
    f_equal.
    apply filter_all. intros ct Hct. simpl. intros Hx%list_elem_of_singleton.
    apply NoDup_app in Hnd as (_ & Hnd & _). apply (Hnd alias_col); [|left].
    rewrite <- Hti, <- Hx. apply list_elem_of_fmap. by exists ct.
  - rewrite Hr3, Hr2, Hr1', Hr0'. do 4 f_equal.
    rewrite list_fmap_bind. apply bind_ext_in. intros c Hc. unfold compose.
    rewrite Hr1, Hr0, <- !list_fmap_compose. apply fmap_ext_in. intros r _.
    unfold compose, long_row.
    destruct (Hkc_plain c Hc) as [Hcn Hcd].
    rewrite normed_row_key; [|done|by intros c' Hc'; apply Hkc_plain].
    rewrite map_filter_drop, decide_False by done. do 3 f_equal.
    apply fmap_ext_in. intros i Hi. f_equal.
    apply list_elem_of_filter in Hi as [[_ Hi1] Hi2].
    rewrite normed_row_field, map_filter_drop by done.
    rewrite decide_False; [done|]. intros Hin.
    apply Hn1 in Hi2 as [Hi2|(c' & _ & ->)].
    + apply Hn0 in Hi2 as [_ ?]. done.
    + by rewrite starts_with_app in Hi1.
Qed.

End DictTable.

Lemma fmap_bind_comm {A B C} (g : B → C) (f : A → list B) (l : list A) :
  g <$> (l ≫= f) = l ≫= λ x, g <$> f x.
Proof.
  induction l as [|x t IH]; [done|].
  change ((x :: t) ≫= f) with (f x ++ (t ≫= f)). by rewrite fmap_app, IH.
Qed.

Lemma fields_names (f : str → value) (cols : list str) :
  ((λ i, (i, f i)) <$> cols).*1 = cols.
Proof.
  rewrite <- list_fmap_compose. rewrite <- (list_fmap_id cols) at 2.
  by apply list_fmap_ext.
Qed.

Lemma map_filter_drop1 (a : str) (m : row) :
  filter (λ kv, kv.1 ∉ [a]) m = delete a m.
Proof.
  apply map_eq. intros i. unfold field.
  pose proof (map_filter_drop [a] m i) as Hf. unfold field in Hf.
  destruct (decide (a = i)) as [->|Hne].
  - rewrite lookup_delete_eq. apply map_lookup_filter_None. right.
    intros x _ Hx. apply Hx. left.
  - rewrite lookup_delete_ne by done. destruct (m !! i) as [v|] eqn:E.
    + apply map_lookup_filter_Some. split; [done|]. simpl.
      intros Hin%list_elem_of_singleton. done.
    + apply map_lookup_filter_None. by left.
Qed.

Lemma eval_key_present_str (upper_char : N → list N) (r : row) (k : str) :
  field r key_norm = VStr k →
  eval upper_char key_present r = VBool (negb (bool_decide (k = []))).
Proof.
  intros Hk. unfold key_present. simpl. rewrite Hk. simpl.
  destruct (decide (k = [])) as [->|Hne].
  - by rewrite !bool_decide_eq_true_2.
  - rewrite (bool_decide_eq_false_2 (VStr k = VStr [])) by congruence.
    by rewrite (bool_decide_eq_false_2 (k = [])).
Qed.

Lemma eval_key_present_null (upper_char : N → list N) (r : row) :
  field r key_norm = VNull → eval upper_char key_present r = VBool false.
Proof. intros Hk. unfold key_present. simpl. by rewrite Hk. Qed.

Section MappingFacts.

Variable upper_char : N → list N.
Variable reorder : list row → list row.

(** Whatever order the engine leaves the rows of [unique] in, they are
    the same rows. *)
Hypothesis reorder_perm : ∀ l, reorder l ≡ₚ l.

Local Abbreviation nkey := (normalize_key upper_char).

Lemma long_row_key (descs : list str) (c : str) (r : row) :
  field (long_row upper_char descs c r) key_norm
  = on_str nkey (cast_utf8 (field r c)).
Proof. unfold long_row. by rewrite field_insert, decide_True. Qed.

Lemma long_row_drop (descs : list str) (c : str) (r : row) :
  alias_col ∉ descs →
  filter (λ kv, kv.1 ∉ [alias_col]) (long_row upper_char descs c r)
  = dict_entry descs (on_str nkey (cast_utf8 (field r c)), r).
Proof.
  intros Hnin. unfold long_row, dict_entry. simpl.
  rewrite map_filter_drop1, delete_insert_ne by done.
  rewrite delete_insert_id; [done|].
  apply not_elem_of_list_to_map_1. by rewrite fields_names.
Qed.

(** The rows of the mapping with a given key: the first row of the long
    table with that key, if it passed the filter. *)
Lemma mapping_rows_by_key dict_df dm descs v :
  build_dict_table upper_char reorder dict_df = Ok (dm, descs) →
  filter (λ d, field d key_norm = v) (rows dm)
  = option_list
      ((λ r : row, filter (λ kv, kv.1 ∉ [alias_col]) r)
       <$> head (filter (λ r, field r key_norm = v)
                   (filter (λ r, eval upper_char key_present r = VBool true)
                      (key_cols_of dict_df ≫= λ c,
                         long_row upper_char descs c <$> rows dict_df)))).
Proof.
  intros (_ & _ & Hr)%build_dict_table_Ok. rewrite Hr.
  rewrite filter_fmap_comm.
  rewrite (list_filter_iff _ (λ r, field r key_norm = v)).
  2:{ intros r. rewrite map_filter_drop, decide_False; [done|].
      intros Hx%list_elem_of_singleton. done. }
  match goal with |- _ <$> ?X = _ =>
    assert (X = option_list
                  (head (filter (λ r, field r key_norm = v)
                     (filter (λ r, eval upper_char key_present r = VBool true)
                        (key_cols_of dict_df ≫= λ c,
                           long_row upper_char descs c <$> rows dict_df)))))
      as ->
  end.
  { apply option_list_perm. rewrite reorder_perm.
    by rewrite (keep_first_filter (λ r, field r key_norm)). }
  by destruct (head _).
Qed.

Lemma mapping_one_row_per_key dict_df dm descs :
  build_dict_table upper_char reorder dict_df = Ok (dm, descs) →
  one_row_per_key key_norm (rows dm).
Proof.
  intros H k. destruct k as [|x| | |];
    try (rewrite filter_none; [simpl; lia|by intros d]).
  rewrite (list_filter_iff _ (λ d, field d key_norm = VStr x)).
  - rewrite (mapping_rows_by_key _ _ _ _ H). by destruct (head _); simpl; lia.
  - intros d. unfold key_match. destruct (field d key_norm); try done.
    rewrite bool_decide_eq_true. split; congruence.
Qed.

Lemma mapping_keys_present dict_df dm descs d :
  build_dict_table upper_char reorder dict_df = Ok (dm, descs) →
  d ∈ rows dm → ∃ k, field d key_norm = VStr k ∧ k ≠ [].
Proof.
  intros (_ & _ & Hr)%build_dict_table_Ok. rewrite Hr.
  intros (r & -> & Hin)%list_elem_of_fmap.
  rewrite reorder_perm in Hin. apply keep_first_subset in Hin.
  apply list_elem_of_filter in Hin as [HQ Hin].
  apply list_elem_of_bind in Hin as (c & Hin & _).
  apply list_elem_of_fmap in Hin as (r0 & -> & _).
  rewrite map_filter_drop, decide_False
    by (intros Hx%list_elem_of_singleton; done).
  pose proof (long_row_key descs c r0) as Hk.
  destruct (cast_utf8 (field r0 c)) as [|s| | |] eqn:E; simpl in Hk;
    try (by rewrite (eval_key_present_null _ _ Hk) in HQ).
  exists (nkey s). split; [done|].
  rewrite (eval_key_present_str _ _ _ Hk) in HQ.
  intros Hnil. by rewrite Hnil in HQ.
Qed.

End MappingFacts.

Section MappingTheorem.

Variable upper_char : N → list N.
Variable reorder : list row → list row.
Hypothesis reorder_perm : ∀ l, reorder l ≡ₚ l.

(** C4. For every non-empty key, the mapping holds exactly the entry of
    its first occurrence in the dictionary (alias column by alias column,
    rows in order), and no row when the key does not occur; no row of
    the mapping has a null or empty key. *)
Theorem dict_first_occurrence_wins dict_df dm descs :
  build_dict_table upper_char reorder dict_df = Ok (dm, descs) →
  (∀ k, k ≠ [] →
     filter (λ d, field d key_norm = VStr k) (rows dm)
     = option_list
         (dict_entry descs
          <$> head (filter (λ o, o.1 = VStr k)
                      (alias_occurrences upper_char dict_df))))
  ∧ (∀ d, d ∈ rows dm → ∃ k, field d key_norm = VStr k ∧ k ≠ []).
Proof.
  intros H. split; [|intros d; by eapply mapping_keys_present].
  intros k Hk. rewrite (mapping_rows_by_key _ _ reorder_perm _ _ _ _ H).
  f_equal. destruct (build_dict_table_Ok _ _ _ _ _ H) as (Hnd & _ & _).
  assert (alias_col ∉ descs) as Hal.
  { apply NoDup_app in Hnd as (_ & Hnd & _). intros Hin. apply (Hnd _ Hin). left. }
  rewrite list_filter_filter.
  rewrite (list_filter_iff _ (λ r, field r key_norm = VStr k)).
  2:{ intros r. split; [tauto|]. intros Hr. split; [done|].
      rewrite (eval_key_present_str _ _ _ Hr).
      by rewrite bool_decide_eq_false_2. }
  unfold alias_occurrences. rewrite !filter_bind_comm, <- !head_fmap.
  f_equal. rewrite !fmap_bind_comm. apply list_bind_ext; [|done]. intros c.
  rewrite !filter_fmap_comm, <- !list_fmap_compose. simpl.
  rewrite (list_filter_iff
             (λ x, field (long_row upper_char descs c x) key_norm = VStr k)
             (λ x, on_str (normalize_key upper_char) (cast_utf8 (field x c)) = VStr k))
    by (intros r; by rewrite long_row_key).
  apply list_fmap_ext. intros i r _. simpl. by apply long_row_drop.
Qed.

End MappingTheorem.

Lemma dict_first_occurrence_wins_witness :
  ∃ dm descs,
    build_dict_table ascii_upper id Scenario.dict_dup = Ok (dm, descs) ∧
    (λ d, field d (lit "Classe_1"))
    <$> filter (λ d, field d key_norm = VStr (lit "AMOXICILINA 500MG")) (rows dm)
    = [VStr (lit "Antibiotico")].
Proof.
  destruct (build_dict_table ascii_upper id Scenario.dict_dup) as [[dm descs]|e] eqn:E;
    [|by vm_compute in E].
  exists dm, descs. split; [done|].
  rewrite (proj1 (dict_first_occurrence_wins ascii_upper id
                    (λ l, reflexivity l) _ dm descs E) (lit "AMOXICILINA 500MG"))
    by done.
  vm_compute in E. injection E as <- <-. by vm_compute.
Defined.

(** * The join *)

Lemma join_name_ext l1 l2 c :
  (∀ x, x ∈ l1 ↔ x ∈ l2) → join_name l1 c = join_name l2 c.
Proof.
  intros H. unfold join_name.
  destruct (decide (c ∈ l1)) as [Hc|Hc].
  - rewrite !bool_decide_eq_true_2; [done|by apply H|done].
  - rewrite !bool_decide_eq_false_2; [done|by rewrite <- H|done].
Qed.

Lemma attach_ext l1 l2 cols m :
  (∀ x, x ∈ l1 ↔ x ∈ l2) → attach l1 cols m = attach l2 cols m.
Proof.
  intros H. unfold attach. f_equal. apply list_fmap_ext. intros i c _.
  by rewrite (join_name_ext l1 l2 c H).
Qed.






Section JoinFacts.

Variable upper_char : N → list N.
Variable is_decimal_digit : N → bool.

Local Abbreviation build_csv := (build_lazy_for_csv upper_char is_decimal_digit).
Local Abbreviation year_of := (year_from_filename is_decimal_digit).
Local Abbreviation nkey := (normalize_key upper_char).
Local Abbreviation enriched := (enriched_row upper_char).
Local Abbreviation numbered := (numbered_row upper_char).







(** The rows [build_lazy_for_csv] returns when the superset has the
    substance column: every enriched row, with the payload of the
    mapping row it matches, or nulls. *)
Lemma build_lazy_for_csv_join path sup lf dm out :
  build_csv path sup lf dm = Ok out →
  PRINCIPIO_ATIVO ∈ sup →
  one_row_per_key key_norm (rows dm) →
  ∃ y, year_of path = Ok y ∧ NoDup sup ∧
       NoDup (join_name (left_cols sup) <$> (payload key_norm dm).*1) ∧
       (∀ c, c ∈ (payload key_norm dm).*1 →
             join_name (left_cols sup) c ∉ left_cols sup) ∧
       rows out
       = imap (λ i src,
                 let lr := enriched y sup (names lf) i src in
                 lr ∪ attach (left_cols sup) (payload key_norm dm).*1
                        (matching_row key_norm (rows dm) lr))
              (rows lf).
Proof.
  intros H Hpa Hone.
  apply build_lazy_for_csv_numbered in H as (y & f3 & Hy & Hnd & Hn3 & Hr3 & H).
  rewrite bool_decide_eq_true_2 in H by done.
  apply bind_Ok in H as (f4 & Hf4 & H).
  apply with_columns_Ok in Hf4 as (t & _ & Hs4 & Hr4).
  apply join_left_Ok in H as (Hso & Hndo & Hro); [|done].
  assert (∀ x, x ∈ names f4 ↔ x ∈ left_cols sup) as Hn4.
  { intros x. unfold names at 1. rewrite Hs4, set_dtype_elem.
    fold (names f3). rewrite Hn3. unfold left_cols.
    rewrite elem_of_cons, elem_of_app, !elem_of_cons, elem_of_nil.
    intuition congruence. }
  assert (((λ ct : str * dtype, (join_name (names f4) ct.1, ct.2)) <$>
             payload key_norm dm).*1
          = join_name (left_cols sup) <$> (payload key_norm dm).*1) as Hren.
  { rewrite <- !list_fmap_compose. apply list_fmap_ext. intros i ct _. simpl.
    by apply join_name_ext. }
  unfold names in Hndo. rewrite Hso, fmap_app, Hren in Hndo.
  apply NoDup_app in Hndo as (_ & Hdisj & Hndr).
  exists y. split; [done|]. split; [done|]. split; [done|]. split.
  - intros c Hc Hin. apply Hn4 in Hin. apply (Hdisj _ Hin).
    apply list_elem_of_fmap. by exists c.
  - rewrite Hro, Hr4, Hr3, !fmap_imap. apply imap_ext. intros i src _. simpl.
    unfold enriched_row. f_equal. by apply attach_ext.
Qed.

End JoinFacts.

(** * Rows in, rows out *)

Lemma length_bind_sum {A B} (f : A → list B) (l : list A) :
  length (l ≫= f) = sum_list_with (λ x, length (f x)) l.
Proof.
  induction l as [|x t IH]; [done|].
  change ((x :: t) ≫= f) with (f x ++ (t ≫= f)).
  rewrite length_app, IH. done.
Qed.

Lemma select_Ok upper_char es f g :
  select upper_char es f = Ok g →
  (schema g).*1 = es.*2 ∧ length (rows g) = length (rows f).
Proof.
  unfold select. intros H. apply bind_Ok in H as (sch & Hsch & H).
  destruct (first_dup _); [done|]. injection H as <-. simpl.
  split; [|by rewrite length_fmap].
  clear -Hsch. revert sch Hsch. induction es as [|ea t IH]; intros sch H.
  - by injection H as <-.
  - cbn [for_each] in H. apply bind_Ok in H as (y & Hy & H).
    apply bind_Ok in Hy as (t0 & _ & [= <-]).
    apply bind_Ok in H as (ys & Hys & [= <-]).
    rewrite !fmap_cons. f_equal. by apply IH.
Qed.

Lemma concat_vertical_relaxed_length fs f :
  concat_vertical_relaxed fs = Ok f →
  length (rows f) = sum_list_with (λ g, length (rows g)) fs.
Proof.
  unfold concat_vertical_relaxed. destruct fs as [|f0 rest]; [done|].
  destruct (forallb _ rest); [|done]. intros [= <-]. cbn [rows].
  rewrite length_app, length_fmap. cbn [sum_list_with]. f_equal.
  match goal with |- context [coerce_row ?s] => generalize s; intros sch end.
  etransitivity; [apply (length_bind_sum _ rest)|].
  induction rest as [|g t IH]; [done|]. cbn [sum_list_with].
  by rewrite length_fmap, IH.
Qed.

Lemma consolidate_length upper_char sup fs f :
  consolidate upper_char sup fs = Ok f →
  length (rows f) = sum_list_with (λ g, length (rows g)) fs.
Proof.
  unfold consolidate. intros H.
  apply bind_Ok in H as (f0 & Hf0 & H).
  apply concat_vertical_relaxed_length in Hf0 as <-.
  apply bind_Ok in H as (f1 & Hf1 & H).
  assert (length (rows f1) = length (rows f0)) as <-.
  { destruct (filter _ cols_to_drop); [by injection Hf1 as <-|].
    apply drop_columns_Ok in Hf1 as [_ ->]. by rewrite length_fmap. }
  destruct (filter _ [ID; ano; DESCRICAO_APRESENTACAO]); [by injection H as <-|].
  by apply select_Ok in H as [_ ?].
Qed.

Section EnricherTheorems.

Variable upper_char : N → list N.
Variable is_decimal_digit : N → bool.
Variable reorder : list row → list row.
Hypothesis reorder_perm : ∀ l, reorder l ≡ₚ l.

Local Abbreviation build_csv := (build_lazy_for_csv upper_char is_decimal_digit).
Local Abbreviation year_of := (year_from_filename is_decimal_digit).
Local Abbreviation nkey := (normalize_key upper_char).
Local Abbreviation build_dict := (build_dict_table upper_char reorder).

(** Row [i] of what [build_lazy_for_csv] returns is made from parsed row
    [i], and carries the cells given to it before the join. *)
Lemma build_lazy_for_csv_rows path sup lf dm out :
  build_csv path sup lf dm = Ok out →
  one_row_per_key key_norm (rows dm) →
  ∃ y, year_of path = Ok y ∧
       length (rows out) = length (rows lf) ∧
       ∀ i r, rows out !! i = Some r →
         ∃ src, rows lf !! i = Some src ∧
           ∀ c, c ≠ key_norm →
             is_Some (numbered_row upper_char y sup (names lf) i src !! c) →
             field r c = field (numbered_row upper_char y sup (names lf) i src) c.
Proof.
  intros H Hone. destruct (decide (PRINCIPIO_ATIVO ∈ sup)) as [Hpa|Hpa].
  - destruct (build_lazy_for_csv_join _ _ _ _ _ _ _ H Hpa Hone)
      as (y & Hy & _ & _ & _ & Hr).
    exists y. split; [done|]. rewrite Hr, length_imap. split; [done|].
    intros i r Hi. rewrite list_lookup_imap in Hi.
    apply fmap_Some in Hi as (src & Hsrc & ->). exists src. split; [done|].
    intros c Hc Hsome. simpl. unfold enriched_row.
    rewrite field_union_l by (by rewrite lookup_insert_ne).
    by rewrite field_insert, decide_False.
  - apply build_lazy_for_csv_numbered in H as (y & f3 & Hy & _ & _ & Hr3 & H).
    rewrite bool_decide_eq_false_2 in H by done.
    apply with_columns_Ok in H as (t & _ & _ & Hr).
    exists y. split; [done|]. rewrite Hr, Hr3, length_fmap, length_imap.
    split; [done|]. intros i r Hi. rewrite list_lookup_fmap, list_lookup_imap in Hi.
    apply fmap_Some in Hi as (r0 & Hr0 & ->).
    apply fmap_Some in Hr0 as (src & Hsrc & ->). exists src. split; [done|].
    intros c Hc _. by rewrite field_insert, decide_False.
Qed.



End EnricherTheorems.



(** * The whole run *)

Section RunFacts.

Variable upper_char : N → list N.
Variable is_decimal_digit : N → bool.
Variable reorder : list row → list row.

Local Abbreviation build_csv := (build_lazy_for_csv upper_char is_decimal_digit).
Local Abbreviation build_dict := (build_dict_table upper_char reorder).
Local Abbreviation run := (main upper_char is_decimal_digit reorder).

(** A run that completes, step by step undone. *)
Lemma main_Ok listing header scan dict_df out :
  run listing header scan dict_df = Ok out →
  ∃ dm descs col_set frames,
    build_dict dict_df = Ok (dm, descs) ∧
    collect_columns header (sorted listing) = Ok col_set ∧
    for_each (λ fp, build_csv fp (sorted (elements col_set)) (scan fp) dm)
             (sorted listing) = Ok frames ∧
    consolidate upper_char (sorted (elements col_set)) frames = Ok (parquet out) ∧
    unmatched_csv out
    = match unmatched_report upper_char (sorted (elements col_set)) (parquet out) with
      | Ok r => r
      | Err _ => None
      end.
Proof.
  unfold main. destruct (sorted listing) as [|f0 fs] eqn:E; [done|].
  rewrite <- E. clear E f0 fs. intros H.
  apply bind_Ok in H as ([dm descs] & Hdm & H).
  apply bind_Ok in H as (cs & Hcs & H).
  apply bind_Ok in H as (frames & Hfr & H).
  apply bind_Ok in H as (all_lf & Hall & H).
  injection H as <-. by exists dm, descs, cs, frames.
Qed.

(** The consolidated frame has no [key_norm] column: it is among the
    columns dropped before writing. *)
Lemma consolidate_no_key_norm sup fs f :
  consolidate upper_char sup fs = Ok f → key_norm ∉ names f.
Proof.
  unfold consolidate. intros H.
  apply bind_Ok in H as (f0 & _ & H).
  apply bind_Ok in H as (f1 & Hf1 & H).
  assert (key_norm ∉ names f1) as Hk.
  { destruct (decide (key_norm ∈ names f0)) as [Hin|Hnin].
    - assert (key_norm ∈ filter (λ c, c ∈ names f0) cols_to_drop) as Hd.
      { apply list_elem_of_filter. split; [done|].
        unfold cols_to_drop. do 2 right. left. }
      destruct (filter (λ c, c ∈ names f0) cols_to_drop) as [|c0 cs] eqn:E.
      { by apply not_elem_of_nil in Hd. }
      apply drop_columns_Ok in Hf1 as [Hs _]. unfold names. rewrite Hs.
      intros (ct & Hct & Hin')%list_elem_of_fmap.
      apply list_elem_of_filter in Hin' as [Hn _]. apply Hn. by rewrite <- Hct.
    - destruct (filter (λ c, c ∈ names f0) cols_to_drop) as [|c0 cs] eqn:E.
      { by injection Hf1 as <-. }
      apply drop_columns_Ok in Hf1 as [Hs _]. unfold names. rewrite Hs.
      intros (ct & Hct & Hin')%list_elem_of_fmap.
      apply list_elem_of_filter in Hin' as [_ Hin']. apply Hnin.
      rewrite Hct. apply list_elem_of_fmap. by exists ct. }
  destruct (filter (λ c, c ∈ names f1) [ID; ano; DESCRICAO_APRESENTACAO])
    as [|c0 cs] eqn:E.
  { by injection H as <-. }
  apply select_Ok in H as [Hs _]. unfold names at 1. rewrite Hs.
  rewrite <- list_fmap_compose, list_fmap_id. rewrite <- E.
  intros [Hin|Hin]%elem_of_app.
  - apply list_elem_of_filter in Hin as [Hin _]. done.
  - apply list_elem_of_filter in Hin as [_ Hin]. done.
Qed.

(** So the report query, which reads [key_norm], raises whenever it is
    attempted. *)
Lemma unmatched_report_raises sup f :
  key_norm ∉ names f →
  unmatched_report upper_char sup f
  = if bool_decide (PRINCIPIO_ATIVO ∈ sup)
    then Err (ColumnNotFound key_norm) else Ok None.
Proof.
  intros Hk. unfold unmatched_report. case_bool_decide; [|done].
  unfold with_columns. simpl.
  destruct (lookup_dtype (schema f) key_norm) as [t|e] eqn:E.
  - apply lookup_dtype_Ok in E. exfalso. apply Hk.
    apply list_elem_of_fmap. by exists (key_norm, t).
  - unfold lookup_dtype in E.
    destruct (list_find _ _) as [[? [? ?]]|]; [done|]. by injection E as <-.
Qed.

(** No run writes the report. *)
Lemma main_report_not_written listing header scan dict_df out :
  run listing header scan dict_df = Ok out → unmatched_csv out = None.
Proof.
  intros H. apply main_Ok in H as (dm & descs & cs & frames & _ & _ & _ & Hc & ->).
  rewrite unmatched_report_raises by (by eapply consolidate_no_key_norm).
  by case_bool_decide.
Qed.

End RunFacts.

Section RunTheorems.

Variable upper_char : N → list N.
Variable is_decimal_digit : N → bool.
Variable reorder : list row → list row.
Hypothesis reorder_perm : ∀ l, reorder l ≡ₚ l.

Local Abbreviation build_csv := (build_lazy_for_csv upper_char is_decimal_digit).
Local Abbreviation build_dict := (build_dict_table upper_char reorder).
Local Abbreviation run := (main upper_char is_decimal_digit reorder).

(** C10. The mapping has at most one row per key, so the join keeps the
    rows of every file as they are: each per-file frame has as many rows
    as were parsed from its file, and the consolidated frame has the sum
    of them. *)
Theorem join_keeps_row_counts listing header scan dict_df out :
  run listing header scan dict_df = Ok out →
  ∃ dm descs superset_cols frames,
    build_dict dict_df = Ok (dm, descs) ∧
    one_row_per_key key_norm (rows dm) ∧
    Forall2 (λ fp f, build_csv fp superset_cols (scan fp) dm = Ok f ∧
                     length (rows f) = length (rows (scan fp)))
            (sorted listing) frames ∧
    length (rows (parquet out)) = sum_list_with (λ f, length (rows f)) frames ∧
    length (rows (parquet out))
    = sum_list_with (λ fp, length (rows (scan fp))) (sorted listing).
Proof.
  intros H.
  apply main_Ok in H as (dm & descs & cs & frames & Hdm & _ & Hfr & Hc & _).
  pose proof (mapping_one_row_per_key _ _ reorder_perm _ _ _ Hdm) as Hone.
  apply for_each_Ok in Hfr. apply consolidate_length in Hc.
  exists dm, descs, (sorted (elements cs)), frames.
  split; [done|]. split; [done|].
  assert (Forall2 (λ fp f, build_csv fp (sorted (elements cs)) (scan fp) dm = Ok f ∧
                           length (rows f) = length (rows (scan fp)))
                  (sorted listing) frames) as HF.
  { eapply Forall2_impl; [exact Hfr|]. intros fp f Hf. split; [done|].
    by destruct (build_lazy_for_csv_rows _ _ _ _ _ _ _ Hf Hone) as (y & _ & ? & _). }
  split; [done|]. split; [done|]. rewrite Hc. clear -HF.
  induction HF as [|fp f fps fs [_ Hl] _ IH]; [done|].
  cbn [sum_list_with]. by rewrite Hl, IH.
Qed.

End RunTheorems.

Lemma join_keeps_row_counts_witness :
  ∃ out, Scenario.run = Ok out ∧ length (rows (parquet out)) = 5%nat.
Proof.
  destruct Scenario.run as [out|e] eqn:E; [|by vm_compute in E].
  exists out. split; [done|].
  destruct (join_keeps_row_counts ascii_upper ascii_digit id (λ l, reflexivity l)
              _ _ _ _ _ E) as (_ & _ & _ & _ & _ & _ & _ & _ & ->).
  by vm_compute.
Defined.

(** C3. In the two-file scenario of the specification the run writes the
    five consolidated rows and no report: [key_norm] is dropped from the
    frame before the report query reads it, the query raises, and the
    exception is swallowed.  The specification expects a report with
    2020,2 and 2021,1. *)
Theorem scenario_report_not_written :
  ∃ out, Scenario.run = Ok out ∧
         length (rows (parquet out)) = 5%nat ∧
         unmatched_report ascii_upper [PRINCIPIO_ATIVO] (parquet out)
         = Err (ColumnNotFound key_norm) ∧
         unmatched_csv out = None.
Proof.
  destruct Scenario.run as [out|e] eqn:E; [|by vm_compute in E].
  exists out. vm_compute in E. injection E as <-. by vm_compute.
Qed.

(** On the frame as it is before the drop the query would run, and count
    the rows whose key is null, not those without a match: here, none. *)
Lemma scenario_report_before_drop_empty :
  ∃ f, Scenario.report_before_drop = Ok (Some f) ∧ rows f = [].
Proof.
  destruct Scenario.report_before_drop as [[f|]|e] eqn:E; try (by vm_compute in E).
  exists f. split; [done|]. vm_compute in E. by injection E as <-.
Qed.

(** * Two runs on the same input *)



(** The superset does not depend on the order in which the set of column
    names is enumerated. *)
Lemma superset_order_free (col_set : gset str) (l : list str) :
  NoDup l → (∀ c, c ∈ l ↔ c ∈ col_set) → sorted l = sorted (elements col_set).
Proof.
  intros Hnd Hl. apply sorted_perm_eq. apply NoDup_Permutation; [done| |].
  - apply NoDup_elements.
  - intros c. by rewrite Hl, elem_of_elements.
Qed.

Section Determinism.

Variable upper_char : N → list N.
Variable is_decimal_digit : N → bool.
Variables reorder1 reorder2 : list row → list row.
Hypothesis reorder1_perm : ∀ l, reorder1 l ≡ₚ l.
Hypothesis reorder2_perm : ∀ l, reorder2 l ≡ₚ l.

Local Abbreviation build_csv := (build_lazy_for_csv upper_char is_decimal_digit).





End Determinism.


(** * More on the key normaliser *)

Lemma drop_while_app_all p (w s : str) :
  Forall (λ c, p c = true) w → drop_while p (w ++ s) = drop_while p s.
Proof. induction 1 as [|c t Hc _ IH]; [done|]. simpl. by rewrite Hc. Qed.

Lemma strip_with_surround p (w1 w2 s : str) :
  Forall (λ c, p c = true) w1 → Forall (λ c, p c = true) w2 →
  strip_with p (w1 ++ s ++ w2) = strip_with p s.
Proof.
  intros H1 H2. unfold strip_with. rewrite (drop_while_app_all p w1) by done.
  destruct (drop_while_suffix p s) as (k & Hk & Hkall).
  destruct (drop_while p s) as [|c t] eqn:E.
  - (* [s] is all whitespace *)
    assert (drop_while p (s ++ w2) = []) as ->.
    { rewrite Hk, app_nil_r, (drop_while_app_all p k) by done.
      rewrite <- (app_nil_r w2). by rewrite (drop_while_app_all p w2). }
    done.
  - assert (drop_while p (s ++ w2) = (c :: t) ++ w2) as ->.
    { rewrite Hk at 1. rewrite <- app_assoc, (drop_while_app_all p k) by done.
      pose proof (drop_while_head_ok p s) as Hh. rewrite E in Hh. simpl in *.
      by rewrite Hh. }
    rewrite reverse_app, (drop_while_app_all p (reverse w2)); [done|].
    by apply Forall_reverse.
Qed.

Lemma collapse_ws_drop (t : str) :
  collapse_ws true (drop_while is_whitespace t) = collapse_ws true t.
Proof.
  induction t as [|c t IH]; [done|]. simpl.
  destruct (is_whitespace c) eqn:E; [done|]. simpl. by rewrite E.
Qed.

(** Collapsing every run does not see whether the first run was rewritten
    beforehand. *)
Lemma replace_all_after_first (x : str) :
  replace_all_ws_runs (replace_ws_run x) = replace_all_ws_runs x.
Proof.
  unfold replace_all_ws_runs. induction x as [|c t IH]; [done|]. simpl.
  destruct (is_whitespace c) eqn:E; simpl.
  - by rewrite collapse_ws_drop.
  - by rewrite E, IH.
Qed.

(** X1. Whatever the cell, the normalised key is a text or null, and a
    text key is trimmed: stripping it again changes nothing. *)
Theorem normalize_key_expr_trimmed (upper_char : N → list N) (e : expr) (r : row) :
  match eval upper_char (normalize_key_expr e) r with
  | VStr k => strip_chars k = k
  | VNull => True
  | _ => False
  end.
Proof.
  rewrite eval_normalize_key_expr.
  destruct (cast_utf8 (eval upper_char e r)) eqn:E; simpl; try done.
  unfold normalize_key. apply strip_with_fixed.
  - apply replace_ws_run_head_ok, strip_with_head_ok.
  - apply replace_ws_run_last_ok, strip_with_last_ok.
Qed.

Section NormalizerInvariance.

Variable upper_char : N → list N.

(** Facts of the Unicode table: the code points of an upper-case mapping
    are their own upper case, and whitespace has no other case. *)
Hypothesis upper_fixed : ∀ c d, d ∈ upper_char c → upper_char d = [d].
Hypothesis upper_ws : ∀ c, is_whitespace c = true → upper_char c = [c].

(** X2. The key does not see the case of the value nor the whitespace
    around it: a value and its upper-cased form wrapped in any whitespace
    have the same key. *)
Theorem normalize_key_case_and_margin (w1 w2 s : str) :
  Forall (λ c, is_whitespace c = true) w1 →
  Forall (λ c, is_whitespace c = true) w2 →
  normalize_key upper_char (w1 ++ to_uppercase upper_char s ++ w2)
  = normalize_key upper_char s.
Proof.
  intros H1 H2. unfold normalize_key. f_equal.
  assert (∀ w, Forall (λ c, is_whitespace c = true) w →
               to_uppercase upper_char w = w) as Hw.
  { intros w Hw. apply to_uppercase_fixed. eapply Forall_impl; [exact Hw|].
    intros c Hc. by apply upper_ws. }
  assert (to_uppercase upper_char (w1 ++ to_uppercase upper_char s ++ w2)
          = w1 ++ to_uppercase upper_char s ++ w2) as ->.
  { unfold to_uppercase at 1. rewrite !bind_app.
    fold (to_uppercase upper_char w1). fold (to_uppercase upper_char w2).
    fold (to_uppercase upper_char (to_uppercase upper_char s)).
    rewrite (Hw w1 H1), (Hw w2 H2).
    by rewrite (to_uppercase_fixed upper_char _ (to_uppercase_image upper_char upper_fixed s)). }
  by apply strip_with_surround.
Qed.

End NormalizerInvariance.

Lemma ascii_upper_ws c : is_whitespace c = true → ascii_upper c = [c].
Proof.
  intros Hc. unfold ascii_upper.
  destruct ((97 <=? c) && (c <=? 122)) eqn:E; [|done].
  apply andb_true_iff in E as [H1%N.leb_le H2%N.leb_le].
  unfold is_whitespace in Hc.
  repeat (apply orb_true_iff in Hc as [Hc|Hc]);
    repeat (apply andb_true_iff in Hc as [Hc ?]);
    try apply N.leb_le in Hc; try apply N.eqb_eq in Hc;
    repeat match goal with H : (_ <=? _) = true |- _ => apply N.leb_le in H end; lia.
Qed.

Lemma normalize_key_case_and_margin_witness :
  normalize_key ascii_upper (lit " " ++ to_uppercase ascii_upper (lit "Dipirona sodica") ++ [9; 10])
  = normalize_key ascii_upper (lit "Dipirona sodica").
Proof.
  apply (normalize_key_case_and_margin ascii_upper ascii_upper_fixed ascii_upper_ws).
  - by repeat constructor.
  - by repeat constructor.
Defined.

(** X3. Collapsing every run of the key gives the key of the
    specification: the two differ only in runs after the first that the
    code leaves as they are, and are equal exactly when the key has no run
    left to collapse. *)
Theorem normalize_key_up_to_later_runs (upper_char : N → list N) (s : str) :
  replace_all_ws_runs (normalize_key upper_char s) = normalize_key_spec upper_char s
  ∧ (normalize_key upper_char s = normalize_key_spec upper_char s
     ↔ replace_all_ws_runs (normalize_key upper_char s) = normalize_key upper_char s).
Proof.
  unfold normalize_key, normalize_key_spec. rewrite replace_all_after_first.
  split; [done|]. split; congruence.
Qed.

(** * What a step can raise *)

Lemma bind_Err {A B} (m : result A) (f : A → result B) e :
  m ≫= f = Err e ↔ m = Err e ∨ ∃ a, m = Ok a ∧ f a = Err e.
Proof.
  destruct m as [a|e']; simpl.
  - split; [intros H; right; by exists a|]. by intros [?|(a' & [= ->] & ?)].
  - split; [intros [= ->]; by left|]. intros [[= ->]|(a' & Hd & _)]; [done|discriminate Hd].
Qed.

Lemma for_each_Err_inv {A B} (f : A → result B) (l : list A) e :
  for_each f l = Err e → ∃ x, x ∈ l ∧ f x = Err e.
Proof.
  induction l as [|x t IH]; [done|]. cbn [for_each].
  intros [H|(y & _ & H)]%bind_Err.
  - exists x. split; [left|done].
  - apply bind_Err in H as [H|(ys & _ & H)]; [|done].
    destruct (IH H) as (x' & ? & ?). exists x'. split; [by right|done].
Qed.

Lemma fold_each_Err_inv {A S} (f : S → A → result S) (s : S) (l : list A) e :
  fold_each f s l = Err e → ∃ s' x, x ∈ l ∧ f s' x = Err e.
Proof.
  revert s. induction l as [|x t IH]; intros s; [done|]. cbn [fold_each].
  intros [H|(s' & _ & H)]%bind_Err.
  - exists s, x. split; [left|done].
  - destruct (IH _ H) as (s'' & x' & ? & ?). exists s'', x'. split; [by right|done].
Qed.

Lemma for_each_total {A B} (f : A → result B) (l : list A) :
  (∀ x, x ∈ l → ∃ y, f x = Ok y) → ∃ ys, for_each f l = Ok ys.
Proof.
  induction l as [|x t IH]; intros H; [by exists []|].
  destruct (H x ltac:(left)) as (y & Hy).
  destruct IH as (ys & Hys); [intros z Hz; apply H; by right|].
  exists (y :: ys). cbn [for_each]. by rewrite Hy, Hys.
Qed.

Lemma lookup_dtype_engine sch c e : lookup_dtype sch c = Err e → engine_error e.
Proof.
  unfold lookup_dtype. destruct (list_find _ sch) as [[? [? ?]]|]; [done|].
  by intros [= <-].
Qed.

Lemma need_engine a b e : need a b = Err e → engine_error e.
Proof. unfold need. case_decide; [done|]. by intros [= <-]. Qed.

Ltac engine_step H :=
  repeat match type of H with
  | _ ≫= _ = Err _ =>
      let a := fresh "a" in
      apply bind_Err in H as [H|(a & _ & H)];
      [first [ by eapply lookup_dtype_engine | by eapply need_engine | idtac ]|]
  | Ok _ = Err _ => discriminate H
  | mret _ = Err _ => discriminate H
  end.

Lemma dtype_of_engine sch ex e : dtype_of sch ex = Err e → engine_error e.
Proof.
  revert e. induction ex; intros e0 H; cbn [dtype_of] in H;
    try discriminate H; try (by eapply lookup_dtype_engine);
    engine_step H; eauto using need_engine.
Qed.

Lemma for_each_engine {A B} (f : A → result B) (l : list A) e :
  (∀ x e', f x = Err e' → engine_error e') →
  for_each f l = Err e → engine_error e.
Proof. intros Hf (x & _ & Hx)%for_each_Err_inv. by eapply Hf. Qed.

Lemma lookup_pair_engine sch (c : str) e :
  (t ← lookup_dtype sch c; Ok (c, t)) = Err e → engine_error e.
Proof. intros H. engine_step H. Qed.

Section EngineErrors.

Variable upper_char : N → list N.

Lemma select_engine es f e : select upper_char es f = Err e → engine_error e.
Proof.
  unfold select. intros [H|(sch & _ & H)]%bind_Err.
  - eapply for_each_engine; [|exact H]. intros ea e' He. simpl in He.
    engine_step He. by eapply dtype_of_engine.
  - destruct (first_dup _); [by injection H as <-|done].
Qed.

Lemma with_columns_engine ex name f e :
  with_columns upper_char ex name f = Err e → engine_error e.
Proof.
  unfold with_columns. intros H. engine_step H. by eapply dtype_of_engine.
Qed.

Lemma with_row_index_engine name offset f e :
  with_row_index name offset f = Err e → engine_error e.
Proof. unfold with_row_index. case_bool_decide; [|done]. by intros [= <-]. Qed.

Lemma drop_columns_engine cols f e : drop_columns cols f = Err e → engine_error e.
Proof.
  unfold drop_columns. intros H. engine_step H.
  eapply for_each_engine; [|exact H]. intros c e'. apply lookup_dtype_engine.
Qed.

Lemma filter_rows_engine ex f e :
  filter_rows upper_char ex f = Err e → engine_error e.
Proof.
  unfold filter_rows. intros H. engine_step H. by eapply dtype_of_engine.
Qed.

Lemma unpivot_engine index on vn valn f e :
  unpivot index on vn valn f = Err e → engine_error e.
Proof.
  unfold unpivot. intros H. engine_step H.
  - eapply for_each_engine; [|exact H]. intros c e'. apply lookup_pair_engine.
  - eapply for_each_engine; [|exact H]. intros c e'. apply lookup_dtype_engine.
  - destruct (first_dup _); [by injection H as <-|done].
Qed.

Lemma unique_engine reorder c f e : unique reorder c f = Err e → engine_error e.
Proof. unfold unique. intros H. engine_step H. Qed.

Lemma join_left_engine on l r e : join_left on l r = Err e → engine_error e.
Proof.
  unfold join_left. intros H. engine_step H.
  case_decide; [|by injection H as <-].
  destruct (first_dup _); [by injection H as <-|done].
Qed.

Lemma concat_engine fs e : concat_vertical_relaxed fs = Err e → engine_error e.
Proof.
  unfold concat_vertical_relaxed. destruct fs as [|f rest]; [by intros [= <-]|].
  destruct (forallb _ rest); [done|]. by intros [= <-].
Qed.

Lemma consolidate_engine sup fs e :
  consolidate upper_char sup fs = Err e → engine_error e.
Proof.
  unfold consolidate. intros [H|(f0 & _ & H)]%bind_Err; [by eapply concat_engine|].
  apply bind_Err in H as [H|(f1 & _ & H)].
  - destruct (filter _ cols_to_drop); [done|]. by eapply drop_columns_engine.
  - destruct (filter _ [ID; ano; DESCRICAO_APRESENTACAO]); [done|].
    by eapply select_engine.
Qed.

(** [sanitize_df_columns] never raises. *)
Lemma sanitize_df_columns_total df : ∃ df0, sanitize_df_columns df = Ok df0.
Proof.
  unfold sanitize_df_columns.
  destruct (filter (λ c, py_strip c = []) (names df)) as [|c0 dc] eqn:E; [by eexists|].
  unfold drop_columns.
  destruct (for_each_total (lookup_dtype (schema df)) (c0 :: dc)) as (ts & ->).
  - intros c Hc. rewrite <- E in Hc. apply list_elem_of_filter in Hc as [_ Hc].
    by apply lookup_dtype_is_Ok.
  - by eexists.
Qed.

End EngineErrors.

(** * More on the dictionary builder *)

Lemma sanitize_df_columns_exact df df0 :
  sanitize_df_columns df = Ok df0 →
  schema df0 = filter (λ ct, py_strip ct.1 ≠ []) (schema df) ∧
  rows df0
  = (λ r : row, filter (λ kv, kv.1 ∉ filter (λ c, py_strip c = []) (names df)) r)
    <$> rows df.
Proof.
  intros H. set (dc := filter (λ c, py_strip c = []) (names df)).
  assert (schema df0 = filter (λ ct, ct.1 ∉ dc) (schema df) ∧
          rows df0 = (λ r : row, filter (λ kv, kv.1 ∉ dc) r) <$> rows df) as [Hs Hr].
  { unfold sanitize_df_columns in H. fold dc in H.
    destruct dc as [|c0 dc'] eqn:E.
    - injection H as <-. split.
      + symmetry. apply filter_all. intros ct _. apply not_elem_of_nil.
      + rewrite <- (list_fmap_id (rows df)) at 1. apply fmap_ext_in. intros r _.
        symmetry. apply map_filter_id. intros i x _. apply not_elem_of_nil.
    - by apply drop_columns_Ok in H. }
  split; [|done]. rewrite Hs. apply filter_ext_in. intros ct Hct.
  unfold dc. rewrite list_elem_of_filter. split.
  - intros Hn Hb. apply Hn. split; [done|]. apply list_elem_of_fmap. by exists ct.
  - intros Hn [Hb _]. done.
Qed.

(** X4. [sanitize_df_columns] never fails; it removes exactly the columns
    of blank name, keeps the others in their order, and leaves every cell
    of a kept column as it was. *)
Theorem sanitize_df_columns_keeps_named (df : frame) :
  ∃ df0, sanitize_df_columns df = Ok df0 ∧
         names df0 = filter (λ c, py_strip c ≠ []) (names df) ∧
         length (rows df0) = length (rows df) ∧
         ∀ i r, rows df !! i = Some r →
           ∃ r0, rows df0 !! i = Some r0 ∧
                 ∀ c, py_strip c ≠ [] → r0 !! c = r !! c.
Proof.
  destruct (sanitize_df_columns_total df) as (df0 & H). exists df0. split; [done|].
  apply sanitize_df_columns_exact in H as [Hs Hr]. split; [|split].
  - unfold names. rewrite Hs. by rewrite (filter_fmap_comm fst).
  - by rewrite Hr, length_fmap.
  - intros i r Hi. rewrite Hr, list_lookup_fmap, Hi. eexists. split; [done|].
    intros c Hc. destruct (r !! c) as [v|] eqn:E.
    + apply map_lookup_filter_Some. split; [done|]. simpl.
      intros [Hb _]%list_elem_of_filter. done.
    + apply map_lookup_filter_None. by left.
Qed.

Lemma key_cols_of_sanitize df df0 :
  sanitize_df_columns df = Ok df0 → key_cols_of df0 = key_cols_of df.
Proof.
  intros [Hs _]%sanitize_df_columns_exact. unfold key_cols_of.
  apply filter_ext_in. intros c Hc. unfold names. rewrite Hs.
  apply alias_columns_plain in Hc as [Hc _].
  rewrite !list_elem_of_fmap. split.
  - intros (ct & -> & [_ Hct]%list_elem_of_filter). by exists ct.
  - intros (ct & -> & Hct). exists ct. split; [done|]. by apply list_elem_of_filter.
Qed.

Section ScriptErrors.

Variable upper_char : N → list N.
Variable is_decimal_digit : N → bool.
Variable reorder : list row → list row.

(** What [build_dict_table] can raise: the exit for a dictionary without
    alias columns, or an exception of the engine. *)
Lemma build_dict_table_Err dict_df e :
  build_dict_table upper_char reorder dict_df = Err e →
  (e = NoKeyColumns ∧ key_cols_of dict_df = []) ∨ engine_error e.
Proof.
  unfold build_dict_table.
  destruct (sanitize_df_columns_total dict_df) as (df0 & Hdf0). rewrite Hdf0.
  cbn [mbind result_bind]. rewrite (key_cols_of_sanitize _ _ Hdf0).
  destruct (key_cols_of dict_df) as [|k0 ks] eqn:E.
  { intros [= <-]. by left. }
  intros H. right.
  apply bind_Err in H as [H|(df1 & _ & H)].
  { apply fold_each_Err_inv in H as (s' & c & _ & H). by eapply with_columns_engine. }
  apply bind_Err in H as [H|(l0 & _ & H)]; [by eapply unpivot_engine|].
  apply bind_Err in H as [H|(l1 & _ & H)]; [by eapply filter_rows_engine|].
  apply bind_Err in H as [H|(l2 & _ & H)]; [by eapply unique_engine|].
  apply bind_Err in H as [H|(l3 & _ & H)]; [|done].
  case_bool_decide; [by eapply drop_columns_engine|done].
Qed.

(** What [build_lazy_for_csv] can raise: the error of the year, or an
    exception of the engine. *)
Lemma build_lazy_for_csv_Err path sup lf dm e :
  build_lazy_for_csv upper_char is_decimal_digit path sup lf dm = Err e →
  (e = YearNotFound path ∧
   year_from_filename is_decimal_digit path = Err (YearNotFound path))
  ∨ engine_error e.
Proof.
  unfold build_lazy_for_csv. intros [H|(y & _ & H)]%bind_Err.
  { left. unfold year_from_filename in *.
    destruct (search_year _ _); [done|]. by injection H as <-. }
  right.
  apply bind_Err in H as [H|(p & _ & H)]; [by eapply select_engine|].
  apply bind_Err in H as [H|(f1 & _ & H)]; [by eapply with_columns_engine|].
  apply bind_Err in H as [H|(f2 & _ & H)]; [by eapply with_row_index_engine|].
  apply bind_Err in H as [H|(f3 & _ & H)]; [by eapply with_columns_engine|].
  case_bool_decide; [|by eapply with_columns_engine].
  apply bind_Err in H as [H|(f4 & _ & H)]; [by eapply with_columns_engine|].
  by eapply join_left_engine.
Qed.

Lemma collect_columns_Err (header : str → list str) (files : list str) e :
  collect_columns header files = Err e →
  ∃ p, e = EmptyHeader p ∧ p ∈ files ∧ header p = [].
Proof.
  unfold collect_columns. intros (s' & p & Hp & H)%fold_each_Err_inv.
  destruct (header p) eqn:E; [|done]. injection H as <-. by exists p.
Qed.

End ScriptErrors.

(** * Why a run aborts *)

Lemma sorted_nil_inv (l : list str) : sorted l = [] → l = [].
Proof.
  intros H. pose proof (sorted_Permutation l) as Hp. rewrite H in Hp.
  by apply Permutation_nil_r.
Qed.

Section AbortReasons.

Variable upper_char : N → list N.
Variable is_decimal_digit : N → bool.
Variable reorder : list row → list row.

Local Abbreviation run := (main upper_char is_decimal_digit reorder).

(** X5. Every abort of [main] has one of five reasons: no CSV file was
    listed; the dictionary has none of the alias columns; some listed file
    has an empty header; some listed file has no year in its base name; or
    the engine raised. *)
Theorem main_abort_reasons listing header scan dict_df e :
  run listing header scan dict_df = Err e →
  (e = NoCsvFound ∧ listing = [])
  ∨ (e = NoKeyColumns ∧ key_cols_of dict_df = [])
  ∨ (∃ p, e = EmptyHeader p ∧ p ∈ listing ∧ header p = [])
  ∨ (∃ p, e = YearNotFound p ∧ p ∈ listing ∧
          ∀ pre y post, basename p = pre ++ y ++ post → ¬ is_year is_decimal_digit y)
  ∨ engine_error e.
Proof.
  unfold main. destruct (sorted listing) as [|f0 fs] eqn:E.
  { intros [= <-]. left. split; [done|]. by apply sorted_nil_inv. }
  rewrite <- E. clear E f0 fs. intros H. right.
  apply bind_Err in H as [H|(dm & _ & H)].
  { apply build_dict_table_Err in H as [[-> ?]|?]; [by left|by do 3 right]. }
  right. apply bind_Err in H as [H|(cs & _ & H)].
  { left. apply collect_columns_Err in H as (p & -> & Hp & Hh).
    exists p. split; [done|]. split; [by apply sorted_elem|done]. }
  right. apply bind_Err in H as [H|(frames & _ & H)].
  { apply for_each_Err_inv in H as (p & Hp & H).
    apply build_lazy_for_csv_Err in H as [[-> Hy]|?]; [left|by right].
    exists p. split; [done|]. split; [by apply sorted_elem|].
    unfold year_from_filename in Hy.
    destruct (search_year is_decimal_digit (basename p)) eqn:Es; [done|].
    by apply search_year_None. }
  right. apply bind_Err in H as [H|(all_lf & _ & H)]; [|done].
  by eapply consolidate_engine.
Qed.

(** X6. [main] ends with the exit for "no CSV found" exactly when the
    directory lists no file. *)
Theorem main_no_csv_iff listing header scan dict_df :
  run listing header scan dict_df = Err NoCsvFound ↔ listing = [].
Proof.
  split.
  - intros H. apply main_abort_reasons in H
      as [[_ ?]|[[? _]|[(p & ? & _)|[(p & ? & _)|?]]]]; done.
  - intros ->. done.
Qed.

(** X7. A dictionary with none of the three alias columns aborts every
    run that found files, with the exit for missing key columns, before
    any header or file name is looked at. *)
Theorem main_dictionary_without_keys listing header scan dict_df :
  listing ≠ [] → key_cols_of dict_df = [] →
  run listing header scan dict_df = Err NoKeyColumns.
Proof.
  intros Hl Hk. unfold main.
  destruct (sorted listing) as [|f0 fs] eqn:E.
  { by apply sorted_nil_inv in E. }
  unfold build_dict_table.
  destruct (sanitize_df_columns_total dict_df) as (df0 & Hdf0). rewrite Hdf0.
  cbn [mbind result_bind]. by rewrite (key_cols_of_sanitize _ _ Hdf0), Hk.
Qed.

End AbortReasons.

Lemma main_dictionary_without_keys_witness :
  main ascii_upper ascii_digit id [lit "no_year.csv"] (λ _, [])
       (λ _, Frame [] []) (Frame [(lit "Classe_1", Utf8)] [])
  = Err NoKeyColumns.
Proof.
  by apply (main_dictionary_without_keys ascii_upper ascii_digit id).
Defined.

Lemma main_abort_reasons_witness :
  ∃ e, main ascii_upper ascii_digit id
         [Scenario.file_2020; lit "/data/2019/grouped_all.csv"]
         Scenario.header Scenario.scan Scenario.dict_df = Err e ∧
       e = EmptyHeader (lit "/data/2019/grouped_all.csv").
Proof.
  destruct (main ascii_upper ascii_digit id
              [Scenario.file_2020; lit "/data/2019/grouped_all.csv"]
              Scenario.header Scenario.scan Scenario.dict_df) as [out|e] eqn:E;
    [by vm_compute in E|].
  exists e. split; [done|].
  destruct (main_abort_reasons ascii_upper ascii_digit id _ _ _ _ _ E)
    as [[-> _]|[[-> _]|[(p & -> & _)|[(p & -> & _)|He]]]];
    vm_compute in E; try discriminate E.
  - by injection E as <-.
  - injection E as <-. by destruct He.
Defined.

(** * Empty headers *)

Lemma collect_columns_app (header : str → list str) (a b : list str) (init : gset str) :
  fold_each (λ (col_set : gset str) fp,
               match header fp with
               | [] => Err (EmptyHeader fp)
               | cols => Ok (col_set ∪ list_to_set cols)
               end) init (a ++ b)
  = (s ← fold_each (λ (col_set : gset str) fp,
                      match header fp with
                      | [] => Err (EmptyHeader fp)
                      | cols => Ok (col_set ∪ list_to_set cols)
                      end) init a;
     fold_each (λ (col_set : gset str) fp,
                  match header fp with
                  | [] => Err (EmptyHeader fp)
                  | cols => Ok (col_set ∪ list_to_set cols)
                  end) s b).
Proof.
  revert init. induction a as [|x t IH]; intros init; [done|].
  cbn [app fold_each]. destruct (header x); [done|]. cbn [mbind result_bind].
  apply IH.
Qed.

Lemma collect_columns_nonempty (header : str → list str) (a : list str) (init : gset str) :
  (∀ q, q ∈ a → header q ≠ []) →
  ∃ s, fold_each (λ (col_set : gset str) fp,
                    match header fp with
                    | [] => Err (EmptyHeader fp)
                    | cols => Ok (col_set ∪ list_to_set cols)
                    end) init a = Ok s.
Proof.
  revert init. induction a as [|x t IH]; intros init H; [by eexists|].
  cbn [fold_each]. destruct (header x) eqn:E; [by destruct (H x ltac:(left))|].
  cbn [mbind result_bind]. apply IH. intros q Hq. apply H. by right.
Qed.

(** The first file with an empty header, in the order of the loop, is the
    one the exit names. *)
Lemma collect_columns_first_empty (header : str → list str) (a b : list str) p :
  (∀ q, q ∈ a → header q ≠ []) → header p = [] →
  collect_columns header (a ++ p :: b) = Err (EmptyHeader p).
Proof.
  intros Ha Hp. unfold collect_columns. rewrite collect_columns_app.
  destruct (collect_columns_nonempty header a ∅ Ha) as (s & ->).
  cbn [mbind result_bind fold_each]. by rewrite Hp.
Qed.

Lemma first_with {A} (P : A → Prop) `{!∀ x, Decision (P x)} (l : list A) x :
  x ∈ l → P x → ∃ a p b, l = a ++ p :: b ∧ P p ∧ ∀ q, q ∈ a → ¬ P q.
Proof.
  induction l as [|y t IH]; intros Hx HP; [by apply not_elem_of_nil in Hx|].
  destruct (decide (P y)) as [Hy|Hy].
  - exists [], y, t. split; [done|]. split; [done|]. intros q Hq.
    by apply not_elem_of_nil in Hq.
  - apply elem_of_cons in Hx as [->|Hx]; [done|].
    destruct (IH Hx HP) as (a & p & b & -> & Hp & Ha).
    exists (y :: a), p, b. split; [done|]. split; [done|].
    intros q [->|Hq]%elem_of_cons; [done|by apply Ha].
Qed.

Lemma sorted_split_le (a b : list str) p q :
  Sorted str_le (a ++ p :: b) → q ∈ p :: b → str_le p q.
Proof.
  intros Hs Hq. apply (Sorted_StronglySorted str_le) in Hs.
  apply StronglySorted_app_1_r in Hs. apply StronglySorted_inv in Hs as [_ Hall].
  apply elem_of_cons in Hq as [->|Hq].
  - destruct (total str_le p p); done.
  - rewrite Forall_forall in Hall. by apply Hall.
Qed.

Section EmptyHeader.

Variable upper_char : N → list N.
Variable is_decimal_digit : N → bool.
Variable reorder : list row → list row.

(** X8. When the dictionary is accepted and some listed file has an empty
    header, the run aborts with the exit for an empty header; the file it
    names is the first one, in the sorted order of the paths, whose header
    is empty. *)
Theorem main_empty_header_first listing header scan dict_df dm p :
  build_dict_table upper_char reorder dict_df = Ok dm →
  p ∈ listing → header p = [] →
  ∃ p0, main upper_char is_decimal_digit reorder listing header scan dict_df
        = Err (EmptyHeader p0) ∧
        p0 ∈ listing ∧ header p0 = [] ∧ str_le p0 p.
Proof.
  intros Hdm Hp Hh. apply sorted_elem in Hp.
  destruct (first_with (λ q, header q = []) (sorted listing) p Hp Hh)
    as (a & p0 & b & Hs & Hp0 & Ha).
  exists p0. split; [|split; [|split; [done|]]].
  - unfold main. destruct (sorted listing) as [|f0 fs] eqn:E.
    { by destruct a. }
    rewrite Hdm. cbn [mbind result_bind]. rewrite Hs.
    by rewrite (collect_columns_first_empty header a b p0 Ha Hp0).
  - apply sorted_elem. rewrite Hs. apply elem_of_app. right. left.
  - pose proof (sorted_Sorted listing) as Hsd. rewrite Hs in Hsd, Hp.
    apply elem_of_app in Hp as [Hp|Hp]; [by destruct (Ha p Hp)|].
    by eapply sorted_split_le.
Qed.

End EmptyHeader.

Lemma main_empty_header_first_witness :
  ∃ p0, main ascii_upper ascii_digit id
          [lit "grouped_2021.csv"; lit "grouped_2020.csv"; lit "grouped_2019.csv"]
          (λ fp, if decide (fp = lit "grouped_2019.csv") then [PRINCIPIO_ATIVO] else [])
          Scenario.scan Scenario.dict_df
        = Err (EmptyHeader p0) ∧ p0 = lit "grouped_2020.csv".
Proof.
  destruct (build_dict_table ascii_upper id Scenario.dict_df) as [dm|e] eqn:E;
    [|by vm_compute in E].
  destruct (main_empty_header_first ascii_upper ascii_digit id
              [lit "grouped_2021.csv"; lit "grouped_2020.csv"; lit "grouped_2019.csv"]
              (λ fp, if decide (fp = lit "grouped_2019.csv") then [PRINCIPIO_ATIVO] else [])
              Scenario.scan Scenario.dict_df dm (lit "grouped_2021.csv") E)
    as (p0 & Hm & _ & _ & _).
  - left.
  - by vm_compute.
  - exists p0. split; [done|]. vm_compute in Hm. by injection Hm as <-.
Defined.

(** * When the dictionary builder succeeds *)

Lemma lookup_dtype_NoDup sch c t :
  NoDup sch.*1 → (c, t) ∈ sch → lookup_dtype sch c = Ok t.
Proof.
  intros Hnd Hin. destruct (lookup_dtype_is_Ok sch c) as (t' & Ht').
  { apply list_elem_of_fmap. by exists (c, t). }
  rewrite Ht'. f_equal. apply lookup_dtype_Ok in Ht'.
  apply list_elem_of_lookup in Hin as (i & Hi), Ht' as (j & Hj).
  assert (i = j) as ->.
  { eapply NoDup_lookup; [exact Hnd| |]; rewrite list_lookup_fmap.
    - by rewrite Hi.
    - by rewrite Hj. }
  congruence.
Qed.

Lemma set_dtype_NoDup sch c t : NoDup sch.*1 → NoDup (set_dtype sch c t).*1.
Proof.
  intros Hnd. rewrite set_dtype_names. case_bool_decide as Hc; [done|].
  apply NoDup_app. split; [done|]. split; [|apply NoDup_singleton].
  intros x Hx ->%list_elem_of_singleton. done.
Qed.

Lemma set_dtype_keeps_utf8 sch c n :
  (n, Utf8) ∈ sch → (n, Utf8) ∈ set_dtype sch c Utf8.
Proof.
  intros Hin. unfold set_dtype. case_bool_decide.
  - apply list_elem_of_fmap. exists (n, Utf8). split; [|done]. simpl.
    case_decide; [by subst|done].
  - apply elem_of_app. by left.
Qed.

Lemma set_dtype_sets sch c t : (c, t) ∈ set_dtype sch c t.
Proof.
  unfold set_dtype. case_bool_decide as Hc.
  - apply list_elem_of_fmap in Hc as ([c' t'] & -> & Hin).
    apply list_elem_of_fmap. exists (c', t'). split; [|done]. simpl.
    by rewrite decide_True.
  - apply elem_of_app. right. left.
Qed.

Lemma dtype_of_normalize sch c :
  c ∈ sch.*1 → dtype_of sch (normalize_key_expr (Col c)) = Ok Utf8.
Proof.
  intros (t & Ht)%lookup_dtype_is_Ok. unfold normalize_key_expr.
  cbn [dtype_of]. by rewrite Ht.
Qed.

Section DictSuccess.

Variable upper_char : N → list N.
Variable reorder : list row → list row.

Lemma with_columns_normalize (c name : str) (df : frame) :
  c ∈ names df →
  with_columns upper_char (normalize_key_expr (Col c)) name df
  = Ok (Frame (set_dtype (schema df) name Utf8)
          ((λ r, <[name := eval upper_char (normalize_key_expr (Col c)) r]> r)
           <$> rows df)).
Proof. intros Hc. unfold with_columns. by rewrite dtype_of_normalize. Qed.

Lemma normalize_loop_total (cols : list str) (df : frame) :
  NoDup (names df) → (∀ c, c ∈ cols → c ∈ names df) →
  ∃ df1,
    fold_each (λ df c, with_columns upper_char (normalize_key_expr (Col c))
                         (norm_ ++ c) df) df cols = Ok df1 ∧
    NoDup (names df1) ∧
    (∀ n, (n, Utf8) ∈ schema df → (n, Utf8) ∈ schema df1) ∧
    (∀ c, c ∈ cols → (norm_ ++ c, Utf8) ∈ schema df1).
Proof.
  revert df. induction cols as [|c cs IH]; intros df Hnd Hin.
  - exists df. split; [done|]. split; [done|]. split; [done|].
    intros c Hc. by apply not_elem_of_nil in Hc.
  - cbn [fold_each].
    rewrite with_columns_normalize by (apply Hin; left). cbn [mbind result_bind].
    set (df' := Frame (set_dtype (schema df) (norm_ ++ c) Utf8) _).
    destruct (IH df') as (df1 & Hf & Hnd1 & Hkeep & Hset).
    + by apply set_dtype_NoDup.
    + intros c' Hc'. unfold names, df'. cbn [schema]. apply set_dtype_elem.
      right. apply Hin. by right.
    + exists df1. split; [done|]. split; [done|]. split.
      * intros n Hn. apply Hkeep. by apply set_dtype_keeps_utf8.
      * intros c' [->|Hc']%elem_of_cons; [|by apply Hset].
        apply Hkeep. apply set_dtype_sets.
Qed.

Lemma supertype_all_utf8 (to : list dtype) :
  to ≠ [] → Forall (λ t, t = Utf8) to → foldr supertype Null to = Utf8.
Proof.
  intros Hne Hall. induction Hall as [|t ts -> _ IH]; [done|]. cbn [foldr].
  destruct ts as [|t' ts']; [done|]. by rewrite IH.
Qed.

Lemma drop_columns_total (cols : list str) (f : frame) :
  (∀ c, c ∈ cols → c ∈ names f) → ∃ g, drop_columns cols f = Ok g.
Proof.
  intros H. unfold drop_columns.
  destruct (for_each_total (lookup_dtype (schema f)) cols) as (ts & ->);
    [|by eexists].
  intros c Hc. by apply lookup_dtype_is_Ok, H.
Qed.

Lemma unique_total (c : str) (f : frame) :
  c ∈ names f → ∃ g, unique reorder c f = Ok g.
Proof.
  intros (t & Ht)%lookup_dtype_is_Ok. unfold unique. rewrite Ht. by eexists.
Qed.

Lemma filter_rows_key_present_total (f : frame) :
  NoDup (names f) → (key_norm, Utf8) ∈ schema f →
  ∃ g, filter_rows upper_char key_present f = Ok g.
Proof.
  intros Hnd Hin. unfold filter_rows, key_present. cbn [dtype_of].
  rewrite (lookup_dtype_NoDup _ _ _ Hnd Hin). by eexists.
Qed.

Lemma unpivot_utf8 (index on : list str) (vn valn : str) (f : frame) :
  NoDup (names f) →
  (∀ c, c ∈ index → c ∈ names f) →
  on ≠ [] → (∀ c, c ∈ on → (c, Utf8) ∈ schema f) →
  NoDup (index ++ [vn; valn]) →
  ∃ ti rs, unpivot index on vn valn f
           = Ok (Frame (ti ++ [(vn, Utf8); (valn, Utf8)]) rs) ∧
           ti.*1 = index.
Proof.
  intros Hnd Hidx Hne Hon Hndi. unfold unpivot.
  destruct (for_each_total (λ c, t ← lookup_dtype (schema f) c; Ok (c, t)) index)
    as (ti & Hti).
  { intros c Hc. destruct (lookup_dtype_is_Ok _ _ (Hidx c Hc)) as (t & ->).
    by eexists. }
  rewrite Hti. cbn [mbind result_bind].
  assert (for_each (lookup_dtype (schema f)) on = Ok (replicate (length on) Utf8))
    as ->.
  { apply for_each_Ok_intro. clear Hne. induction on as [|c cs IH]; [constructor|].
    cbn [length replicate]. constructor.
    - apply lookup_dtype_NoDup; [done|]. apply Hon. left.
    - apply IH. intros c' Hc'. apply Hon. by right. }
  cbn [mbind result_bind]. apply first_dup_None in Hndi as ->.
  rewrite supertype_all_utf8.
  - eexists _, _. split; [done|]. by apply for_each_names in Hti as [? _].
  - by destruct on.
  - by apply Forall_replicate.
Qed.

Lemma descs_tail_NoDup (descs : list str) :
  NoDup descs → alias_col ∉ descs → key_norm ∉ descs →
  NoDup (descs ++ [alias_col; key_norm]).
Proof.
  intros Hnd Ha Hk. apply NoDup_app. split; [done|]. split.
  - intros c Hc [->|[->|Hn]%elem_of_cons]%elem_of_cons; [done|done|].
    by apply not_elem_of_nil in Hn.
  - apply NoDup_cons. split; [|apply NoDup_singleton].
    intros Hx%list_elem_of_singleton. by vm_compute in Hx.
Qed.

(** X9. For a dictionary frame with distinct column names, none of them
    [alias_col] or [key_norm], [build_dict_table] returns a mapping exactly
    when at least one of the three alias columns is there; otherwise it
    ends with the exit for missing key columns, and with nothing else. *)
Theorem build_dict_table_succeeds_iff_keys dict_df :
  NoDup (names dict_df) →
  alias_col ∉ names dict_df → key_norm ∉ names dict_df →
  match build_dict_table upper_char reorder dict_df with
  | Ok _ => key_cols_of dict_df ≠ []
  | Err e => e = NoKeyColumns ∧ key_cols_of dict_df = []
  end.
Proof.
  intros Hnd Hal Hkn. unfold build_dict_table.
  destruct (sanitize_df_columns_keeps_named dict_df) as (df0 & Hdf0 & Hn0 & _).
  rewrite Hdf0. cbn [mbind result_bind].
  pose proof (key_cols_of_sanitize _ _ Hdf0) as Hkc. rewrite Hkc.
  destruct (key_cols_of dict_df) as [|k0 ks] eqn:E; [done|].
  rewrite <- E in *. set (kc := key_cols_of dict_df) in *.
  assert (NoDup (names df0)) as Hnd0 by (rewrite Hn0; by apply NoDup_filter).
  assert (∀ c, c ∈ names df0 → c ∈ names dict_df) as Hsub0.
  { intros c. rewrite Hn0. by intros [_ ?]%list_elem_of_filter. }
  destruct (normalize_loop_total kc df0 Hnd0) as (df1 & Hloop & Hnd1 & _ & Hset).
  { intros c Hc. rewrite <- Hkc in Hc.
    by apply key_cols_of_elem in Hc as [_ ?]. }
  rewrite Hloop. cbn [mbind result_bind].
  destruct (normalize_loop_Ok upper_char kc df0 df1 Hloop) as [_ Hn1].
  set (descs := descriptor_cols_of kc df1).
  assert (∀ c, c ∈ descs → c ∈ names df1 ∧ c ∈ names dict_df) as Hdescs.
  { intros c [[_ Hc1] Hc2]%list_elem_of_filter. split; [done|].
    apply Hn1 in Hc2 as [?|(c' & _ & ->)]; [by apply Hsub0|].
    by rewrite starts_with_app in Hc1. }
  assert (NoDup (descs ++ [alias_col; key_norm])) as Hndd.
  { apply descs_tail_NoDup.
    - by apply NoDup_filter.
    - intros Hc. by apply Hdescs in Hc as [_ ?].
    - intros Hc. by apply Hdescs in Hc as [_ ?]. }
  destruct (unpivot_utf8 descs ((λ c, norm_ ++ c) <$> kc) alias_col key_norm df1)
    as (ti & rs & Hun & Hti); try done.
  { intros c Hc. by apply Hdescs. }
  { by rewrite E. }
  { intros c (c' & -> & Hc')%list_elem_of_fmap. by apply Hset. }
  rewrite Hun. cbn [mbind result_bind].
  destruct (filter_rows_key_present_total
              (Frame (ti ++ [(alias_col, Utf8); (key_norm, Utf8)]) rs))
    as (l1 & Hl1).
  { unfold names. cbn [schema]. by rewrite fmap_app, Hti. }
  { cbn [schema]. apply elem_of_app. right. right. left. }
  rewrite Hl1. cbn [mbind result_bind].
  apply filter_rows_Ok in Hl1 as [Hs1 _]. cbn [schema] in Hs1.
  destruct (unique_total key_norm l1) as (l2 & Hl2).
  { unfold names. rewrite Hs1, fmap_app. apply elem_of_app. right. right. left. }
  rewrite Hl2. cbn [mbind result_bind].
  apply unique_Ok in Hl2 as [Hs2 _].
  assert (alias_col ∈ names l2) as Hal2.
  { unfold names. rewrite Hs2, Hs1, fmap_app. apply elem_of_app. right. left. }
  rewrite bool_decide_eq_true_2 by done.
  destruct (drop_columns_total [alias_col] l2) as (l3 & ->).
  { by intros c ->%list_elem_of_singleton. }
  cbn [mbind result_bind]. by rewrite E.
Qed.

End DictSuccess.

Lemma build_dict_table_succeeds_iff_keys_witness :
  match build_dict_table ascii_upper id Scenario.dict_dup with
  | Ok _ => key_cols_of Scenario.dict_dup ≠ []
  | Err e => e = NoKeyColumns ∧ key_cols_of Scenario.dict_dup = []
  end.
Proof.
  apply (build_dict_table_succeeds_iff_keys ascii_upper id Scenario.dict_dup).
  - apply (bool_decide_unpack _). by vm_compute.
  - apply (bool_decide_unpack _). by vm_compute.
  - apply (bool_decide_unpack _). by vm_compute.
Defined.
